(** * The N queens genetic solver: board decoding, fitness and the
      evolution engine of [main.go], embedded and verified.

    Go's [uint] values are integers in [Z] reduced modulo [2^64] after every
    arithmetic operation ([wrap]).  Slices are lists; an index outside a
    slice makes the Go runtime panic, which the embedding renders as [None].
    The [float64] quotients the program forms are quotients of two small
    integers; they are carried as exact rationals. *)

From Stdlib Require Import ZArith QArith Lia.
From Stdlib Require Import Ascii.
From stdpp Require Import base tactics option list list_numbers.

Open Scope Z_scope.

(** ** Machine integers and slices *)

Definition wrap (z : Z) : Z := z mod 2 ^ 64.

(** [s[i]] as an r-value: panics outside the slice. *)
Definition load {A : Type} (s : list A) (i : Z) : option A :=
  if bool_decide (0 ≤ i) then s !! Z.to_nat i else None.

(** [s[i] = v]: panics outside the slice. *)
Definition store {A : Type} (s : list A) (i : Z) (v : A) : option (list A) :=
  if bool_decide (0 ≤ i < Z.of_nat (length s))
  then Some (<[Z.to_nat i := v]> s) else None.

(** Successive stores of one value, used to describe a whole covering pass. *)
Fixpoint store_all {A : Type} (s : list A) (idxs : list Z) (v : A) : option (list A) :=
  match idxs with
  | [] => Some s
  | i :: idxs' => s' ← store s i v; store_all s' idxs' v
  end.

(** ** Data model *)

(** [PosType]: the byte constants FREE = 0, QUEEN = 1, COVERED = 2. *)
Inductive PosType := FREE | QUEEN | COVERED.

#[global] Instance PosType_eq_dec : EqDecision PosType.
Proof. solve_decision. Defined.

Record Board := mkBoard { width : Z; data : list PosType }.

Record Position := mkPosition { pos_x : Z; pos_y : Z }.

(** The [error] result of [place]: [nil] or [errors.New("No available position")]. *)
Inductive error := err_nil | NoAvailablePosition.

#[global] Instance error_eq_dec : EqDecision error.
Proof. solve_decision. Defined.

(** [Solution]: a slice of free-position ordinals, one per queen. *)
Abbreviation Solution := (list Z).

Definition NewBoard (w : Z) : Board :=
  mkBoard w (replicate (Z.to_nat (wrap (w * w))) FREE).

Definition NewSolution (numqueens : Z) : Solution :=
  replicate (Z.to_nat numqueens) 0.

Section NQueens.

(** The constants of the program: [main.go] has QUEENS = BOARDSIZE = 20,
    POPSIZE = 2000 and MAXGENERATIONS = 3000. *)
Variable BOARDSIZE : Z.
Variable QUEENS : Z.
Variable POPSIZE : Z.
Variable MAXGENERATIONS : Z.

(** *** pos2xy *)

(** Inner loop [for p.x = 0; p.x < BOARDSIZE; p.x++]: either returns the
    position found or falls through with the counter [i]. *)
Fixpoint pos2xy_x (xs : list Z) (y i pos : Z) : Position + Z :=
  match xs with
  | [] => inr i
  | x :: xs' =>
      if i =? pos then inl (mkPosition x y)
      else pos2xy_x xs' y (wrap (i + 1)) pos
  end.

(** Outer loop [for p.y = 0; p.y < BOARDSIZE; p.y++]. *)
Fixpoint pos2xy_y (ys : list Z) (i pos : Z) : Position :=
  match ys with
  | [] => mkPosition 255 255
  | y :: ys' =>
      match pos2xy_x (seqZ 0 BOARDSIZE) y i pos with
      | inl p => p
      | inr i' => pos2xy_y ys' i' pos
      end
  end.

Definition pos2xy (pos : Z) : Position :=
  pos2xy_y (seqZ 0 BOARDSIZE) 0 pos.

(** *** place *)

(** The indices written by the body of the covering loops at [(x, y)]:
    the row/column store, the "\" diagonal store and the "/" diagonal
    store, each under the guard the source gives it.  [diagx >= 0] and
    [diagy >= 0] are comparisons of unsigned values. *)
Definition cover_rowcol (width : Z) (o : Position) (x y : Z) : list Z :=
  if (pos_x o =? x) || (pos_y o =? y) then [wrap (wrap (y * width) + x)] else [].

Definition cover_diag1 (width height : Z) (o : Position) (x y : Z) : list Z :=
  if x =? y then
    let diagx := wrap (wrap (x + pos_x o) - pos_y o) in
    let diagy := y in
    if ((0 <=? diagx) && (0 <=? diagy)) && ((diagx <? width) && (diagy <? height))
    then [wrap (wrap (diagy * width) + diagx)] else []
  else [].

Definition cover_diag2 (width height maxx : Z) (o : Position) (x y : Z) : list Z :=
  if wrap (maxx - x) =? y then
    let diagx := wrap (wrap (x - wrap (maxx - pos_x o)) + pos_y o) in
    let diagy := wrap (wrap (y + pos_y o) - pos_y o) in
    if ((0 <=? diagx) && (0 <=? diagy)) && ((diagx <? BOARDSIZE) && (diagy <? height))
    then [wrap (wrap (diagy * width) + diagx)] else []
  else [].

(** Body of the covering loops: three guarded stores of COVERED. *)
Definition cover_cell (width height maxx : Z) (o : Position) (y x : Z)
    (d : list PosType) : option (list PosType) :=
  d1 ← store_all d (cover_rowcol width o x y) COVERED;
  d2 ← store_all d1 (cover_diag1 width height o x y) COVERED;
  store_all d2 (cover_diag2 width height maxx o x y) COVERED.

(** [for x = 0; x < width; x++]. *)
Fixpoint cover_x (width height maxx : Z) (o : Position) (y : Z) (xs : list Z)
    (d : list PosType) : option (list PosType) :=
  match xs with
  | [] => Some d
  | x :: xs' =>
      d' ← cover_cell width height maxx o y x d;
      cover_x width height maxx o y xs' d'
  end.

(** [for y = 0; y < height; y++]. *)
Fixpoint cover_y (width height maxx : Z) (o : Position) (ys : list Z)
    (d : list PosType) : option (list PosType) :=
  match ys with
  | [] => Some d
  | y :: ys' =>
      d' ← cover_x width height maxx o y (seqZ 0 width) d;
      cover_y width height maxx o ys' d'
  end.

(** The covering pass run when the target cell [usepos] has been found. *)
Definition cover (b : Board) (usepos : Z) : option (list PosType) :=
  let width := width b in
  let height := width in
  let maxx := wrap (width - 1) in
  let o := pos2xy usepos in
  cover_y width height maxx o (seqZ 0 height) (data b).

(** The block run when the target cell is found: cover, mark the queen,
    return the index. *)
Definition place_at (b : Board) (usepos : Z) : option (Board * (Z * error)) :=
  d ← cover b usepos;
  d' ← store d usepos QUEEN;
  Some (mkBoard (width b) d', (usepos, err_nil)).

(** The scan [for usepos = 0; usepos < width*width; usepos++] over the
    remaining cells.  Each iteration reads [b.data[usepos]] (in the first
    test, or in the second when the first stops at [targetpos == freepos]);
    the read is done once here. *)
Fixpoint place_scan (cells : list Z) (b : Board) (targetpos freepos : Z)
    : option (Board * (Z * error)) :=
  match cells with
  | [] => Some (b, (0, NoAvailablePosition))
  | usepos :: cells' =>
      c ← load (data b) usepos;
      if (targetpos =? freepos) && bool_decide (c = FREE) then
        place_at b usepos
      else
        place_scan cells' b targetpos
          (if bool_decide (c = FREE) then wrap (freepos + 1) else freepos)
  end.

Definition place (b : Board) (targetpos : Z) : option (Board * (Z * error)) :=
  place_scan (seqZ 0 (wrap (width b * width b))) b targetpos 0.

(** *** generateBoard and fitness *)

(** [for _, queenposindex := range *sol]. *)
Fixpoint generateBoard_loop (genes : list Z) (board : Board) (queenCounter : Z)
    : option (Board * Z) :=
  match genes with
  | [] => Some (board, queenCounter)
  | queenposindex :: genes' =>
      r ← place board queenposindex;
      generateBoard_loop genes' (fst r)
        (if bool_decide (snd (snd r) = err_nil)
         then wrap (queenCounter + 1) else queenCounter)
  end.

Definition generateBoard (sol : Solution) : option (Board * Z) :=
  generateBoard_loop sol (NewBoard BOARDSIZE) 0.

(** [float64(numqueens) / float64(QUEENS)], as an exact rational. *)
Definition fitness (sol : Solution) : option Q :=
  r ← generateBoard sol;
  Some (inject_Z (snd r) / inject_Z QUEENS)%Q.

(** *** String

    A Go string is a sequence of bytes; [s += t] appends. *)

Definition newline : ascii := "010"%char.

(** The text appended for one cell: [" "], ["q"] or ["."]. *)
Definition cell_text (t : PosType) : list ascii :=
  match t with
  | FREE => [" "%char]
  | QUEEN => ["q"%char]
  | COVERED => ["."%char]
  end.

(** [for x = 0; x < width; x++]. *)
Fixpoint String_x (b : Board) (y : Z) (xs : list Z) (s : list ascii)
    : option (list ascii) :=
  match xs with
  | [] => Some s
  | x :: xs' =>
      t ← load (data b) (wrap (wrap (y * width b) + x));
      String_x b y xs' (s ++ cell_text t)
  end.

(** [for y = 0; y < height; y++]. *)
Fixpoint String_y (b : Board) (ys : list Z) (s : list ascii) : option (list ascii) :=
  match ys with
  | [] => Some s
  | y :: ys' =>
      s' ← String_x b y (seqZ 0 (width b)) s;
      String_y b ys' (s' ++ [newline])
  end.

(** [func (b *Board) String() string]. *)
Definition Board_String (b : Board) : option (list ascii) :=
  let width := width b in
  let height := width in
  s ← String_y b (seqZ 0 height) [];
  Some (s ++ [newline]).

(** [func (sol Solution) String() string]. *)
Definition Solution_String (sol : Solution) : option (list ascii) :=
  r ← generateBoard sol;
  Board_String (fst r).

(** *** Decoding with the allocation of the board made explicit

    [NewBoard] returns a pointer into the heap of boards; [place] mutates
    the board behind its receiver. *)

Definition NewBoard_heap (h : list Board) (w : Z) : list Board * nat :=
  (h ++ [NewBoard w], length h).

Definition place_heap (h : list Board) (b : nat) (targetpos : Z)
    : option (list Board * (Z * error)) :=
  board ← h !! b;
  r ← place board targetpos;
  Some (<[b := fst r]> h, snd r).

Fixpoint generateBoard_heap_loop (genes : list Z) (h : list Board) (board : nat)
    (queenCounter : Z) : option (list Board * Z) :=
  match genes with
  | [] => Some (h, queenCounter)
  | queenposindex :: genes' =>
      r ← place_heap h board queenposindex;
      generateBoard_heap_loop genes' (fst r) board
        (if bool_decide (snd (snd r) = err_nil)
         then wrap (queenCounter + 1) else queenCounter)
  end.

Definition generateBoard_heap (h : list Board) (sol : Solution)
    : option (list Board * (nat * Z)) :=
  let '(h0, board) := NewBoard_heap h BOARDSIZE in
  r ← generateBoard_heap_loop sol h0 board 0;
  Some (fst r, (board, snd r)).

Definition fitness_heap (h : list Board) (sol : Solution) : option (list Board * Q) :=
  r ← generateBoard_heap h sol;
  Some (fst r, (inject_Z (snd (snd r)) / inject_Z QUEENS)%Q).

(** ** Genomes on the heap, crossover and mutation

    A [Solution] value of the program is a slice header; the genes live in
    a backing array.  The heap lists the backing arrays by address. *)

Definition alloc (h : list Solution) (s : Solution) : list Solution * nat :=
  (h ++ [s], length h).

(** [sol.set(i, freepos)], that is [sol[i] = freepos]. *)
Definition set (h : list Solution) (sol : nat) (i freepos : Z) : option (list Solution) :=
  s ← h !! sol; s' ← store s i freepos; Some (<[sol := s']> h).

(** [c[i] = a[i]]. *)
Definition copy_gene (h : list Solution) (c a : nat) (i : Z) : option (list Solution) :=
  sa ← h !! a; v ← load sa i; set h c i v.

Fixpoint copy_genes (h : list Solution) (c a : nat) (idxs : list Z)
    : option (list Solution) :=
  match idxs with
  | [] => Some h
  | i :: idxs' => h' ← copy_gene h c a i; copy_genes h' c a idxs'
  end.

Definition crossover (h : list Solution) (a b : nat) (point numqueens : Z)
    : option (list Solution * nat) :=
  let '(h0, c) := alloc h (NewSolution numqueens) in
  h1 ← copy_genes h0 c a (seqZ 0 point);
  h2 ← copy_genes h1 c b (seqZ point (numqueens - point));
  Some (h2, c).

(** ** The evolution engine *)

Section Engine.

(** [math/rand], seeded once: a generator state with the two draws the
    program uses, [rand.Float64()] and [rand.Intn(n)]. *)
Variable RandState : Type.
Variable rand_Float64 : RandState → Q * RandState.
Variable rand_Intn : Z → RandState → Z * RandState.

Fixpoint NewRandomSolution_loop (idxs : list Z) (h : list Solution) (sol : nat)
    (maxboardpos : Z) (r : RandState) : option (list Solution * RandState) :=
  match idxs with
  | [] => Some (h, r)
  | i :: idxs' =>
      let '(v, r') := rand_Intn maxboardpos r in
      h' ← set h sol i v;
      NewRandomSolution_loop idxs' h' sol maxboardpos r'
  end.

Definition NewRandomSolution (h : list Solution) (numqueens maxboardpos : Z)
    (r : RandState) : option (list Solution * nat * RandState) :=
  let '(h0, sol) := alloc h (NewSolution numqueens) in
  hr ← NewRandomSolution_loop (seqZ 0 numqueens) h0 sol maxboardpos r;
  Some (fst hr, sol, snd hr).

Definition mutate (h : list Solution) (sol : nat) (numqueens maxboardpos : Z)
    (r : RandState) : option (list Solution * RandState) :=
  let '(randpos, r1) := rand_Intn numqueens r in
  let '(v, r2) := rand_Intn maxboardpos r1 in
  h' ← set h sol randpos v;
  Some (h', r2).

Record State := mkState {
  heap : list Solution;     (* backing arrays of all genomes allocated so far *)
  pop : list nat;           (* the population: one slice per individual *)
  rand : RandState
}.

Fixpoint NewPopulation_loop (idxs : list Z) (st : State) : option State :=
  match idxs with
  | [] => Some st
  | i :: idxs' =>
      x ← NewRandomSolution (heap st) QUEENS (wrap (BOARDSIZE * BOARDSIZE)) (rand st);
      pop' ← store (pop st) i (snd (fst x));
      NewPopulation_loop idxs' (mkState (fst (fst x)) pop' (snd x))
  end.

(** [rand.Seed] fixes the generator state [seed]; [make([]Solution, size)]
    holds nil slices, rendered by the address 0 until they are assigned. *)
Definition NewPopulation (size : Z) (seed : RandState) : option State :=
  NewPopulation_loop (seqZ 0 size) (mkState [] (replicate (Z.to_nat size) 0%nat) seed).

Definition sum (scores : list Q) : Q := fold_left Qplus scores 0%Q.

Definition Qgtb (a b : Q) : bool := negb (Qle_bool a b).
Definition Qltb (a b : Q) : bool := negb (Qle_bool b a).

(** [for i, s := range pop { fit[i] = s.fitness() }]. *)
Fixpoint evaluate_loop (h : list Solution) (p : list nat) (i : Z) (fit : list Q)
    : option (list Q) :=
  match p with
  | [] => Some fit
  | s :: p' =>
      sol ← h !! s;
      f ← fitness sol;
      fit' ← store fit i f;
      evaluate_loop h p' (i + 1) fit'
  end.

Definition evaluate (popsize : Z) (st : State) : option (list Q) :=
  evaluate_loop (heap st) (pop st) 0 (replicate (Z.to_nat popsize) 0%Q).

(** The four variables of the best / runner-up scan. *)
Record Selection := mkSelection {
  bestfitness : Q;
  bestfitnessindex : Z;
  nextbestfitness : Q;
  nextbestfitnessindex : Z
}.

(** [for i, _ := range fit { if fit[i] >= bestfitness { ... } }]. *)
Fixpoint select_scan (fit : list Q) (i : Z) (s : Selection) : Selection :=
  match fit with
  | [] => s
  | f :: fit' =>
      select_scan fit' (i + 1)
        (if Qle_bool (bestfitness s) f
         then mkSelection f i (bestfitness s) (bestfitnessindex s)
         else s)
  end.

(** The scan of one generation.  [bestfitness], [nextbestfitness] and
    [nextbestfitnessindex] are declared afresh in every generation;
    [bestfitnessindex] is declared before the generation loop and enters
    with the value [bestindex] the last generation left. *)
Definition select (fit : list Q) (bestindex : Z) : Selection :=
  select_scan fit 0 (mkSelection 0 bestindex 0 0).

(** [pop[i] = NewSolution(QUEENS)]. *)
Definition replace_individual (i : Z) (st : State) : option State :=
  let '(h, sol) := alloc (heap st) (NewSolution QUEENS) in
  pop' ← store (pop st) i sol;
  Some (mkState h pop' (rand st)).

(** The replacement chain at the head of the operator pass. *)
Definition replacement (average fitness : Q) (i : Z) (st : State) : option State :=
  if Qgtb average 0.7 && Qltb fitness 0.5 then replace_individual i st
  else if Qgtb average 0.8 && Qltb fitness 0.6 then replace_individual i st
  else if Qgtb average 0.9 && Qltb fitness 0.7 then replace_individual i st
  else if Qltb fitness (average * 0.3) then
    let '(u, r) := rand_Float64 (rand st) in
    let st' := mkState (heap st) (pop st) r in
    if Qle_bool u 0.5 then replace_individual i st' else Some st'
  else Some st.

Definition mutation (mutrate : Q) (popsize : Z) (st : State) : option State :=
  let '(u, r) := rand_Float64 (rand st) in
  if Qle_bool u mutrate then
    let '(k, r') := rand_Intn popsize r in
    sol ← load (pop st) k;
    x ← mutate (heap st) sol QUEENS (wrap (BOARDSIZE * BOARDSIZE)) r';
    Some (mkState (fst x) (pop st) (snd x))
  else Some (mkState (heap st) (pop st) r).

Definition crossover_step (crossrate : Q) (sel : Selection) (i : Z) (st : State)
    : option State :=
  let '(u, r) := rand_Float64 (rand st) in
  if Qle_bool u crossrate then
    let '(crossoverpoint, r') := rand_Intn QUEENS r in
    a ← load (pop st) (bestfitnessindex sel);
    b ← load (pop st) (nextbestfitnessindex sel);
    x ← crossover (heap st) a b crossoverpoint QUEENS;
    pop' ← store (pop st) i (snd x);
    Some (mkState (fst x) pop' r')
  else Some (mkState (heap st) (pop st) r).

Definition newpop_step (newpoprate : Q) (i : Z) (st : State) : option State :=
  let '(u, r) := rand_Float64 (rand st) in
  let st' := mkState (heap st) (pop st) r in
  if Qle_bool u newpoprate then replace_individual i st' else Some st'.

(** Body of [for i, _ := range pop] in [main]. *)
Definition operators (average : Q) (sel : Selection) (popsize : Z) (fit : list Q)
    (i : Z) (st : State) : option State :=
  fitness ← load fit i;
  st1 ← replacement average fitness i st;
  let slow := Qgtb (bestfitness sel) average in
  let mutrate0 := (if slow then 0.15 else 0.4)%Q in
  let crossrate := (if slow then 0.07 else 0.4)%Q in
  let mutrate :=
    if Qeq_bool (bestfitness sel) (nextbestfitness sel)
    then (mutrate0 * 3.0)%Q else mutrate0 in
  let newpoprate := (if Qgtb average 0.9 then 0.4 else 0.2)%Q in
  let '(skip, st2) :=
    if Qgtb fitness (bestfitness sel * 0.9) then
      let '(u, r) := rand_Float64 (rand st1) in
      (Qle_bool u 0.9, mkState (heap st1) (pop st1) r)
    else (false, st1) in
  if skip then Some st2
  else
    st3 ← mutation mutrate popsize st2;
    st4 ← crossover_step crossrate sel i st3;
    newpop_step newpoprate i st4.

Fixpoint operators_loop (average : Q) (sel : Selection) (popsize : Z) (fit : list Q)
    (idxs : list Z) (st : State) : option State :=
  match idxs with
  | [] => Some st
  | i :: idxs' =>
      st' ← operators average sel popsize fit i st;
      operators_loop average sel popsize fit idxs' st'
  end.

(** How one pass of the generation loop ends: [break] on a perfect
    individual, or on to the next generation. *)
Inductive outcome := Break (st : State) (sel : Selection) | Next (st : State) (sel : Selection).

(** One generation: evaluate, select, test for termination, apply the
    operators.  [bestindex] is the value the variable [bestfitnessindex],
    declared at the top of [main], holds when the generation starts. *)
Definition generation (popsize : Z) (st : State) (bestindex : Z) : option outcome :=
  fit ← evaluate popsize st;
  let total := sum fit in
  let average := (total / inject_Z popsize)%Q in
  let sel := select fit bestindex in
  if Qeq_bool (bestfitness sel) 1.0 then Some (Break st sel)
  else
    st' ← operators_loop average sel popsize fit
            (seqZ 0 (Z.of_nat (length (pop st)))) st;
    Some (Next st' sel).

(** [for generation = 0; generation < MAXGENERATIONS; generation++]. *)
Fixpoint generations (n : nat) (popsize : Z) (st : State) (bestindex : Z)
    : option (State * Z) :=
  match n with
  | O => Some (st, bestindex)
  | S n' =>
      o ← generation popsize st bestindex;
      match o with
      | Break st' sel => Some (st', bestfitnessindex sel)
      | Next st' sel => generations n' popsize st' (bestfitnessindex sel)
      end
  end.

Definition main (seed : RandState) : option (State * Z) :=
  let bestfitnessindex := 0 in
  let popsize := POPSIZE in
  st ← NewPopulation popsize seed;
  generations (Z.to_nat MAXGENERATIONS) popsize st bestfitnessindex.

End Engine.

Arguments mkState {RandState}.
Arguments heap {RandState}.
Arguments pop {RandState}.
Arguments rand {RandState}.
Arguments Break {RandState}.
Arguments Next {RandState}.
Arguments NewPopulation {RandState}.
Arguments evaluate {RandState}.
Arguments replace_individual {RandState}.
Arguments replacement {RandState}.
Arguments mutation {RandState}.
Arguments crossover_step {RandState}.
Arguments newpop_step {RandState}.
Arguments operators {RandState}.
Arguments operators_loop {RandState}.
Arguments generation {RandState}.
Arguments generations {RandState}.
Arguments main {RandState}.

(** *** Geometry and observations used by the specifications *)

Definition col (p : Z) : Z := p mod BOARDSIZE.
Definition row (p : Z) : Z := p / BOARDSIZE.

(** Cells [p] and [q] lie on a common row, column, "\" or "/" diagonal. *)
Definition attacks (p q : Z) : bool :=
  (col p =? col q) || (row p =? row q)
  || (col p - row p =? col q - row q) || (col p + row p =? col q + row q).

(** All indices the covering loops store to, in program order. *)
Definition cell_writes (width height maxx : Z) (o : Position) (y x : Z) : list Z :=
  cover_rowcol width o x y ++ cover_diag1 width height o x y
  ++ cover_diag2 width height maxx o x y.

Definition cover_writes (b : Board) (usepos : Z) : list Z :=
  let width := width b in
  let o := pos2xy usepos in
  y ← seqZ 0 width; x ← seqZ 0 width;
  cell_writes width width (wrap (width - 1)) o y x.

Definition free_count (d : list PosType) : Z :=
  Z.of_nat (length (filter (λ c, c = FREE) d)).

Definition queen_count (d : list PosType) : Z :=
  Z.of_nat (length (filter (λ c, c = QUEEN) d)).

(** A board as [NewBoard BOARDSIZE] allocates it, whatever its cells hold. *)
Definition board_wf (b : Board) : Prop :=
  width b = BOARDSIZE ∧ Z.of_nat (length (data b)) = BOARDSIZE * BOARDSIZE.

(** No two queens of the board share a row, a column or a diagonal. *)
Definition non_attacking (b : Board) : Prop :=
  ∀ p q, p ≠ q → load (data b) p = Some QUEEN → load (data b) q = Some QUEEN →
         attacks p q = false.

(** The character a cell is printed as. *)
Definition cell_char (t : PosType) : ascii :=
  match t with
  | FREE => " "%char
  | QUEEN => "q"%char
  | COVERED => "."%char
  end.

(** One printed row: the cells of row [y], then a newline. *)
Definition row_text (b : Board) (y : Z) : list ascii :=
  ((λ x, cell_char (default FREE (data b !! Z.to_nat (y * BOARDSIZE + x))))
     <$> seqZ 0 BOARDSIZE) ++ [newline].

(** Where the cell of index [p] stands in the printed board: rows are
    [N + 1] bytes long. *)
Definition text_pos (p : Z) : nat := Z.to_nat (row p * (BOARDSIZE + 1) + col p).

(** Every cell a queen of the board attacks has left the FREE state. *)
Definition covered_inv (b : Board) : Prop :=
  ∀ p q, 0 ≤ p < BOARDSIZE * BOARDSIZE → 0 ≤ q < BOARDSIZE * BOARDSIZE →
         load (data b) p = Some QUEEN → attacks p q = true →
         load (data b) q ≠ Some FREE.

(** The invariant of the boards a decode goes through. *)
Definition board_ok (b : Board) : Prop :=
  board_wf b ∧ covered_inv b ∧ non_attacking b.

(** The cells marked QUEEN while the genes are decoded from [board], in order. *)
Fixpoint placements (genes : list Z) (board : Board) : list Z :=
  match genes with
  | [] => []
  | g :: genes' =>
      match place board g with
      | Some (board', (usepos, err_nil)) => usepos :: placements genes' board'
      | Some (board', (_, NoAvailablePosition)) => placements genes' board'
      | None => []
      end
  end.

(** A genome as the engine keeps it: Q genes, each in [0, N²). *)
Definition genome_ok (s : Solution) : Prop :=
  Z.of_nat (length s) = QUEENS ∧
  Forall (λ g, 0 ≤ g < BOARDSIZE * BOARDSIZE) s.

(** A population of [popsize] slices: no two share a backing array, and
    every backing array holds a genome. *)
Definition state_wf {RandState : Type} (popsize : Z) (st : State RandState) : Prop :=
  Z.of_nat (length (pop st)) = popsize ∧ NoDup (pop st) ∧
  Forall (λ p, ∃ s, heap st !! p = Some s ∧ genome_ok s) (pop st).

(** *** A scripted generator, for concrete runs

    The generator state counts the draws made so far; draw number [r]
    is read off a fixed table. *)

Definition scripted_Float64 (r : nat) : Q * nat :=
  (nth r [0.1; 0; 0; 0; 0.99; 0.99; 0.95; 0.1; 0; 0; 0; 0.99; 0.99]%Q 0.99%Q, S r).

Definition scripted_Intn (n : Z) (r : nat) : Z * nat :=
  (nth r [0; 0; 1; 1; 0; 0; 0; 0; 1; 1; 6; 0; 0] 0 mod n, S r).

(** A population of two on the 4×4 board, the state one generation later
    under the scripted generator, and the selections of the two scans. *)
Definition run_st0 : State nat :=
  mkState [[15; 15; 15; 1]; [0; 0; 0; 1]] [0%nat; 1%nat] 0%nat.

Definition run_st1 : State nat :=
  mkState [[15; 1; 15; 1]; [0; 6; 0; 1]] [0%nat; 1%nat] 13%nat.

Definition run_sel1 : Selection := mkSelection (3 # 4) 1 (2 # 4) 0.

Definition run_sel2 : Selection := mkSelection (3 # 4) 0 0 1.

(** The 4×4 board after a queen is placed on cell 5 of the empty board, a
    4×4 board without a free cell, and a population of one whose only
    individual is a solution. *)
Definition board_q5 : Board :=
  mkBoard 4 [COVERED; COVERED; COVERED; FREE;
             COVERED; QUEEN; COVERED; COVERED;
             COVERED; COVERED; COVERED; FREE;
             FREE; COVERED; FREE; COVERED].

Definition covered_board : Board := mkBoard 4 (replicate 16 COVERED).

Definition solved_st : State nat := mkState [[1; 0; 0; 0]] [0%nat] 0%nat.

Definition solved_sel : Selection := mkSelection (4 # 4) 0 0 0.

(** ** Specifications *)

(** *** Machine arithmetic and slices *)

Lemma two64 : 2 ^ 64 = 18446744073709551616.
Proof. reflexivity. Qed.

Lemma two32 : 2 ^ 32 = 4294967296.
Proof. reflexivity. Qed.

Lemma wrap_small z : 0 ≤ z < 2 ^ 64 → wrap z = z.
Proof. intros. unfold wrap. by apply Z.mod_small. Qed.

Lemma wrap_neg z : - 2 ^ 64 ≤ z < 0 → wrap z = z + 2 ^ 64.
Proof.
  intros. unfold wrap. symmetry.
  apply (Z.mod_unique z (2 ^ 64) (-1)); lia.
Qed.

Lemma wrap_add_l a b : wrap (wrap a + b) = wrap (a + b).
Proof. unfold wrap. apply Zplus_mod_idemp_l. Qed.

Lemma wrap_sub_l a b : wrap (wrap a - b) = wrap (a - b).
Proof. unfold wrap. apply Zminus_mod_idemp_l. Qed.

Lemma wrap_sub_r a b : wrap (a - wrap b) = wrap (a - b).
Proof. unfold wrap. apply Zminus_mod_idemp_r. Qed.

Lemma store_all_app {A} (d : list A) l1 l2 v :
  store_all d (l1 ++ l2) v = d' ← store_all d l1 v; store_all d' l2 v.
Proof.
  revert d. induction l1 as [|i l1 IH]; intros d; simpl; [done|].
  destruct (store d i v); simpl; [apply IH|done].
Qed.

Lemma load_store {A} (d d' : list A) i v j :
  store d i v = Some d' → 0 ≤ j →
  load d' j = if decide (j = i) then Some v else load d j.
Proof.
  unfold store, load. intros Hst Hj.
  case_bool_decide as Hi; [|done]. simplify_eq.
  rewrite !bool_decide_eq_true_2 by done.
  case_decide as Hji.
  - subst. apply list_lookup_insert_eq. lia.
  - apply list_lookup_insert_ne. lia.
Qed.

Lemma store_length {A} (d d' : list A) i v :
  store d i v = Some d' → length d' = length d.
Proof.
  unfold store. case_bool_decide; [|done]. intros; simplify_eq.
  apply length_insert.
Qed.

Lemma store_is_Some {A} (d : list A) i v :
  0 ≤ i < Z.of_nat (length d) → is_Some (store d i v).
Proof. intros. unfold store. rewrite bool_decide_eq_true_2 by done. eauto. Qed.

Lemma store_all_spec {A} (l : list Z) : ∀ (d : list A) v,
  Forall (λ i, 0 ≤ i < Z.of_nat (length d)) l →
  ∃ d', store_all d l v = Some d' ∧ length d' = length d ∧
        ∀ j, 0 ≤ j → load d' j = if decide (j ∈ l) then Some v else load d j.
Proof.
  induction l as [|i l IH]; intros d v Hl.
  - exists d. split; [done|]. split; [done|]. intros j _.
    rewrite decide_False; [done|]. apply not_elem_of_nil.
  - apply Forall_cons in Hl as [Hi Hl].
    destruct (store_is_Some d i v Hi) as [d1 Hd1].
    pose proof (store_length _ _ _ _ Hd1) as Hlen1.
    destruct (IH d1 v) as (d' & Hd' & Hlen' & Hload).
    { by rewrite Hlen1. }
    exists d'. simpl. rewrite Hd1. simpl.
    split; [done|]. split; [congruence|].
    intros j Hj. rewrite Hload by done.
    rewrite (load_store _ _ _ _ _ Hd1 Hj).
    destruct (decide (j ∈ i :: l)) as [Hin|Hnin];
      [apply elem_of_cons in Hin|apply not_elem_of_cons in Hnin];
      repeat case_decide; subst; try done; tauto.
Qed.

Lemma load_lookup {A} (d : list A) k :
  0 ≤ k → load d k = d !! Z.to_nat k.
Proof. intros. unfold load. by rewrite bool_decide_eq_true_2. Qed.

Lemma load_Some_range {A} (d : list A) p x :
  load d p = Some x → 0 ≤ p < Z.of_nat (length d).
Proof.
  unfold load. case_bool_decide; [|done]. intros Hp%lookup_lt_Some. lia.
Qed.

Lemma load_of_nat {A} (d : list A) (i : nat) : load d (Z.of_nat i) = d !! i.
Proof. rewrite load_lookup by lia. by rewrite Nat2Z.id. Qed.

(** ** The selection scan *)

Lemma Qle_bool_false a b : (b < a)%Q → Qle_bool a b = false.
Proof.
  intros Hlt. destruct (Qle_bool a b) eqn:E; [|done].
  apply Qle_bool_iff in E. by apply Qlt_not_le in Hlt.
Qed.

Lemma Qle_bool_true a b : (a <= b)%Q → Qle_bool a b = true.
Proof. apply Qle_bool_iff. Qed.

Lemma select_scan_app l1 : ∀ l2 i s,
  select_scan (l1 ++ l2) i s =
  select_scan l2 (i + Z.of_nat (length l1)) (select_scan l1 i s).
Proof.
  induction l1 as [|f l1 IH]; intros l2 i s; simpl.
  - by rewrite Z.add_0_r.
  - rewrite IH. f_equal. lia.
Qed.

(** Individuals strictly below the running best leave the scan state alone. *)
Lemma select_scan_below l : ∀ i s,
  Forall (λ f, (f < bestfitness s)%Q) l → select_scan l i s = s.
Proof.
  induction l as [|f l IH]; intros i s Hl; [done|].
  apply Forall_cons in Hl as [Hf Hl]. simpl.
  rewrite Qle_bool_false by done. by apply IH.
Qed.

Lemma select_scan_le m l : ∀ i s,
  (bestfitness s <= m)%Q → Forall (λ f, (f <= m)%Q) l →
  (bestfitness (select_scan l i s) <= m)%Q.
Proof.
  induction l as [|f l IH]; intros i s Hs Hl; [done|].
  apply Forall_cons in Hl as [Hf Hl]. simpl. apply IH; [|done].
  by destruct (Qle_bool (bestfitness s) f).
Qed.

Lemma select_two_maxima l1 fk l2 fj l3 bestindex m :
  (0 <= m)%Q → Forall (λ f, (f <= m)%Q) l1 → (fk == m)%Q →
  Forall (λ f, (f < m)%Q) l2 → (fj == m)%Q → Forall (λ f, (f < m)%Q) l3 →
  select (l1 ++ fk :: l2 ++ fj :: l3) bestindex =
  mkSelection fj (Z.of_nat (length l1) + 1 + Z.of_nat (length l2))
              fk (Z.of_nat (length l1)).
Proof.
  intros Hm H1 Hk H2 Hj H3. unfold select.
  rewrite select_scan_app. simpl select_scan at 1.
  set (s1 := select_scan l1 0 _).
  assert (bestfitness s1 <= m)%Q as Hs1 by (by apply select_scan_le).
  rewrite Qle_bool_true by (by rewrite Hk).
  rewrite select_scan_app, (select_scan_below l2).
  2:{ simpl. eapply Forall_impl; [exact H2|]. simpl. intros f Hf. by rewrite Hk. }
  simpl. rewrite Qle_bool_true by (rewrite Hk, Hj; apply Qle_refl).
  rewrite (select_scan_below l3).
  2:{ simpl. eapply Forall_impl; [exact H3|]. simpl. intros f Hf. by rewrite Hj. }
  f_equal; lia.
Qed.

(** C3.  When several individuals share the maximum fitness [m], with [j]
    the last index attaining it and [k] the index attaining it immediately
    before [j] in the scan, the scan ends with [bestfitnessindex = j] and
    [nextbestfitnessindex = k], whatever the index variable held before. *)
Theorem select_last_wins (fit : list Q) (bestindex : Z) (m : Q) (j k : nat)
    (fj fk : Q) :
  (0 <= m)%Q →
  (∀ i f, fit !! i = Some f → (f <= m)%Q) →
  fit !! j = Some fj → (fj == m)%Q →
  (∀ i f, (j < i)%nat → fit !! i = Some f → (f < m)%Q) →
  (k < j)%nat → fit !! k = Some fk → (fk == m)%Q →
  (∀ i f, (k < i < j)%nat → fit !! i = Some f → (f < m)%Q) →
  select fit bestindex = mkSelection fj (Z.of_nat j) fk (Z.of_nat k).
Proof.
  intros Hm Hmax Hj Hjm Hafter Hkj Hk Hkm Hbetween.
  pose proof (lookup_lt_Some _ _ _ Hj) as Hjlen.
  assert (take j fit !! k = Some fk) as Hk' by (by rewrite lookup_take_lt).
  rewrite <- (take_drop_middle fit j fj Hj).
  rewrite <- (take_drop_middle (take j fit) k fk Hk'), <- app_assoc. simpl.
  rewrite (select_two_maxima _ _ _ _ _ bestindex m); try done.
  - rewrite length_drop, !length_take. f_equal; lia.
  - apply Forall_lookup_2. intros i f Hi.
    apply lookup_take_Some in Hi as [Hi _].
    apply lookup_take_Some in Hi as [Hi _]. by eapply Hmax.
  - apply Forall_lookup_2. intros i f Hi.
    rewrite lookup_drop in Hi.
    apply lookup_take_Some in Hi as [Hi Hlt].
    eapply Hbetween; [|exact Hi]. lia.
  - apply Forall_lookup_2. intros i f Hi.
    rewrite lookup_drop in Hi.
    eapply Hafter; [|exact Hi]. lia.
Qed.

Lemma select_only_first f0 rest bestindex :
  (0 <= f0)%Q → Forall (λ f, (f < f0)%Q) rest →
  select (f0 :: rest) bestindex = mkSelection f0 0 0 bestindex.
Proof.
  intros H0 Hrest. unfold select. simpl.
  rewrite Qle_bool_true by done. by apply select_scan_below.
Qed.

(** *** The scan finds the maximum *)

Lemma Qle_bool_not a b : Qle_bool a b = false → (b < a)%Q.
Proof.
  intros E. apply Qnot_le_lt. intros Hle.
  apply Qle_bool_iff in Hle. congruence.
Qed.

(** What the scan from index [i] leaves, in terms of the state it started
    from. *)
Lemma select_scan_inv fit : ∀ i s,
  let s' := select_scan fit i s in
  (bestfitness s <= bestfitness s')%Q ∧
  Forall (λ f, (f <= bestfitness s')%Q) fit ∧
  ((nextbestfitness s <= bestfitness s)%Q →
   (nextbestfitness s' <= bestfitness s')%Q) ∧
  (s' = s ∧ Forall (λ f, (f < bestfitness s)%Q) fit
   ∨ ∃ j : nat, bestfitnessindex s' = i + Z.of_nat j ∧
                fit !! j = Some (bestfitness s')) ∧
  (nextbestfitnessindex s' = nextbestfitnessindex s
   ∨ nextbestfitnessindex s' = bestfitnessindex s
   ∨ i ≤ nextbestfitnessindex s' < i + Z.of_nat (length fit)).
Proof.
  induction fit as [|f fit IH]; intros i s; simpl.
  - split; [apply Qle_refl|]. split; [done|]. split; [done|].
    split; [by left|by left].
  - remember (if Qle_bool (bestfitness s) f
              then mkSelection f i (bestfitness s) (bestfitnessindex s) else s)
      as s1 eqn:Es1.
    destruct (IH (i + 1) s1) as (Hmono & Hall & Hnext & Hidx & Hnidx).
    destruct (Qle_bool (bestfitness s) f) eqn:E; subst s1; simpl in *.
    + apply Qle_bool_iff in E.
      split; [by eapply Qle_trans|]. split; [by apply Forall_cons|].
      split; [intros _; by apply Hnext|]. split.
      * right. destruct Hidx as [[Heq _]|(j & Hj & Hfj)].
        -- exists 0%nat. rewrite Heq. simpl. split; [lia|done].
        -- exists (S j). simpl. split; [lia|done].
      * destruct Hnidx as [Hn|[Hn|Hn]]; [right; left; done|right; right; lia..].
    + apply Qle_bool_not in E.
      split; [done|]. split.
      { apply Forall_cons. split; [|done].
        eapply Qle_trans; [apply Qlt_le_weak; exact E|done]. }
      split; [done|]. split.
      * destruct Hidx as [[Heq Hlt]|(j & Hj & Hfj)].
        -- left. split; [done|]. by apply Forall_cons.
        -- right. exists (S j). simpl. split; [lia|done].
      * destruct Hnidx as [Hn|[Hn|Hn]]; [by left|by right; left|right; right; lia].
Qed.

Lemma select_best fit bestindex :
  fit ≠ [] → Forall (λ f, (0 <= f)%Q) fit →
  ∃ j : nat, bestfitnessindex (select fit bestindex) = Z.of_nat j ∧
             fit !! j = Some (bestfitness (select fit bestindex)).
Proof.
  intros Hne Hpos. unfold select.
  destruct (select_scan_inv fit 0 (mkSelection 0 bestindex 0 0))
    as (_ & _ & _ & [[_ Hlt]|(j & Hj & Hfj)] & _).
  - destruct fit as [|f fit]; [done|].
    apply Forall_cons in Hlt as [Hlt _]. apply Forall_cons in Hpos as [Hpos _].
    simpl in Hlt. by apply Qlt_not_le in Hlt.
  - exists j. split; [lia|done].
Qed.

Lemma select_next_range fit bestindex :
  0 ≤ bestindex < Z.of_nat (length fit) →
  0 ≤ nextbestfitnessindex (select fit bestindex) < Z.of_nat (length fit).
Proof.
  intros Hb. unfold select.
  destruct (select_scan_inv fit 0 (mkSelection 0 bestindex 0 0))
    as (_ & _ & _ & _ & [Hn|[Hn|Hn]]); simpl in Hn; lia.
Qed.

(** X9.  On a non-empty vector of non-negative scores the scan ends with
    the maximum: [bestfitnessindex] is an index of the vector,
    [bestfitness] is the score there, no score exceeds it, and the
    runner-up score does not exceed it either. *)
Theorem select_finds_maximum (fit : list Q) (bestindex : Z) :
  fit ≠ [] → Forall (λ f, (0 <= f)%Q) fit →
  let sel := select fit bestindex in
  (∃ j : nat, bestfitnessindex sel = Z.of_nat j ∧
              fit !! j = Some (bestfitness sel)) ∧
  Forall (λ f, (f <= bestfitness sel)%Q) fit ∧
  (nextbestfitness sel <= bestfitness sel)%Q.
Proof.
  intros Hne Hpos sel. split; [by apply select_best|].
  destruct (select_scan_inv fit 0 (mkSelection 0 bestindex 0 0))
    as (_ & Hall & Hnext & _).
  split; [done|]. apply Hnext. simpl. apply Qle_refl.
Qed.



(** ** Crossover *)

Section Copy.

Variables (h : list Solution) (a : nat) (A : Solution).
Hypothesis Ha : h !! a = Some A.

Lemma copy_genes_spec idxs : ∀ C0,
  Forall (λ i, 0 ≤ i < Z.of_nat (length A) ∧ i < Z.of_nat (length C0)) idxs →
  ∃ C1, copy_genes (h ++ [C0]) (length h) a idxs = Some (h ++ [C1]) ∧
        length C1 = length C0 ∧
        ∀ j, 0 ≤ j → load C1 j = if decide (j ∈ idxs) then load A j else load C0 j.
Proof.
  induction idxs as [|i idxs IH]; intros C0 Hidx.
  - exists C0. split; [done|]. split; [done|]. intros j _.
    rewrite decide_False; [done|apply not_elem_of_nil].
  - apply Forall_cons in Hidx as [[HiA HiC] Hidx].
    simpl. unfold copy_gene, set.
    rewrite (lookup_app_l_Some _ _ _ _ Ha). simpl.
    destruct (lookup_lt_is_Some_2 A (Z.to_nat i) ltac:(lia)) as [v Hv].
    rewrite load_lookup, Hv by lia. simpl.
    rewrite list_lookup_middle by done. simpl.
    destruct (store_is_Some C0 i v ltac:(lia)) as [C' HC'].
    rewrite HC'. simpl.
    replace (<[length h := C']> (h ++ [C0])) with (h ++ [C']).
    2:{ replace (length h) with (length h + 0)%nat at 1 by lia.
        by rewrite insert_app_r. }
    pose proof (store_length _ _ _ _ HC') as Hlen.
    destruct (IH C') as (C1 & -> & Hlen1 & Hload).
    { eapply Forall_impl; [exact Hidx|]. simpl. intros; lia. }
    exists C1. split; [done|]. split; [congruence|].
    intros j Hj. rewrite Hload by done.
    rewrite (load_store _ _ _ _ _ HC' Hj).
    destruct (decide (j ∈ i :: idxs)) as [Hin|Hnin];
      [apply elem_of_cons in Hin|apply not_elem_of_cons in Hnin];
      repeat case_decide; subst; try done; try tauto.
    by rewrite load_lookup.
Qed.

End Copy.

(** C9.  For genomes A and B of length Q held at [a] and [b], and a cut
    point 0 ≤ p ≤ Q, crossover allocates one new genome C of length Q with
    C[i] = A[i] below p and C[i] = B[i] from p on; the heap it returns is
    the old heap followed by C, so A and B are as they were. *)
Theorem crossover_single_point (h : list Solution) (a b : nat) (A B : Solution)
    (point : Z) :
  h !! a = Some A → h !! b = Some B →
  Z.of_nat (length A) = QUEENS → Z.of_nat (length B) = QUEENS →
  0 ≤ point ≤ QUEENS →
  ∃ C, crossover h a b point QUEENS = Some (h ++ [C], length h) ∧
       Z.of_nat (length C) = QUEENS ∧
       (∀ i, 0 ≤ i < point → load C i = load A i) ∧
       (∀ i, point ≤ i < QUEENS → load C i = load B i) ∧
       (h ++ [C]) !! a = Some A ∧ (h ++ [C]) !! b = Some B.
Proof.
  intros Ha Hb HA HB Hp. unfold crossover, alloc, NewSolution.
  cbv beta iota.
  destruct (copy_genes_spec h a A Ha (seqZ 0 point) (replicate (Z.to_nat QUEENS) 0))
    as (C1 & HC1 & Hlen1 & Hload1).
  { apply Forall_seqZ. intros i Hi. rewrite length_replicate. lia. }
  destruct (copy_genes_spec h b B Hb (seqZ point (QUEENS - point)) C1)
    as (C2 & HC2 & Hlen2 & Hload2).
  { apply Forall_seqZ. intros i Hi.
    rewrite Hlen1, length_replicate. lia. }
  exists C2. rewrite HC1. simpl. rewrite HC2. simpl. split; [done|].
  rewrite length_replicate in Hlen1.
  split; [lia|]. split; [|split; [|split]].
  - intros i Hi. rewrite Hload2, Hload1 by lia.
    rewrite decide_False by (rewrite elem_of_seqZ; lia).
    rewrite decide_True by (rewrite elem_of_seqZ; lia). done.
  - intros i Hi. rewrite Hload2 by lia.
    rewrite decide_True by (rewrite elem_of_seqZ; lia). done.
  - by apply lookup_app_l_Some.
  - by apply lookup_app_l_Some.
Qed.

(** *** A cut point beyond the genome *)

Lemma copy_gene_Some (h : list Solution) c a i h' :
  copy_gene h c a i = Some h' →
  ∃ sc v, h !! c = Some sc ∧ 0 ≤ i < Z.of_nat (length sc) ∧
          h' = <[c := <[Z.to_nat i := v]> sc]> h.
Proof.
  unfold copy_gene, set, store. intros H.
  destruct (h !! a) as [sa|]; simpl in H; [|done].
  destruct (load sa i) as [v|]; simpl in H; [|done].
  destruct (h !! c) as [sc|]; simpl in H; [|done].
  case_bool_decide; simpl in H; [|done]. simplify_eq.
  exists sc, v. done.
Qed.

Lemma copy_genes_out_of_range c a idxs : ∀ (h : list Solution) sc,
  h !! c = Some sc → Exists (λ i, Z.of_nat (length sc) ≤ i) idxs →
  copy_genes h c a idxs = None.
Proof.
  induction idxs as [|i idxs IH]; intros h sc Hc Hbad.
  - by apply Exists_nil in Hbad.
  - simpl. destruct (copy_gene h c a i) as [h'|] eqn:E; [|done]. simpl.
    apply copy_gene_Some in E as (sc' & v & Hc' & Hi & ->).
    rewrite Hc in Hc'. simplify_eq.
    apply Exists_cons in Hbad as [Hbad|Hbad]; [lia|].
    apply (IH _ (<[Z.to_nat i := v]> sc')).
    + apply list_lookup_insert_eq. by eapply lookup_lt_Some.
    + by rewrite length_insert.
Qed.

(** X18.  A cut point beyond [numqueens] makes [crossover] index outside
    the child it has just allocated: the call panics, whatever the parents
    are. *)
Theorem crossover_point_beyond_end (h : list Solution) (a b : nat)
    (point numqueens : Z) :
  0 ≤ numqueens < point →
  crossover h a b point numqueens = None.
Proof.
  intros Hp. unfold crossover, alloc, NewSolution. cbv beta iota.
  rewrite (copy_genes_out_of_range _ _ _ _ (replicate (Z.to_nat numqueens) 0)).
  - done.
  - by apply list_lookup_middle.
  - apply Exists_exists. exists numqueens. split.
    + apply elem_of_seqZ. lia.
    + rewrite length_replicate. lia.
Qed.

(** ** The operator pass *)

Section EngineSpec.

Variable RandState : Type.
Variable rand_Float64 : RandState → Q * RandState.
Variable rand_Intn : Z → RandState → Z * RandState.

Lemma Qeq_bool_false a b : ¬ (a == b)%Q → Qeq_bool a b = false.
Proof.
  intros Hne. destruct (Qeq_bool a b) eqn:E; [|done].
  by apply Qeq_bool_iff in E.
Qed.

(** C10.  [bestfitnessindex] is not reset between generations.  Let a
    generation end (without a perfect individual) with the selection
    [sel1], and let the next one evaluate to a fitness vector on which the
    test [fit[i] >= bestfitness] fires at index 0 only.  Then its scan ends
    with best index 0, runner-up fitness 0 and runner-up index the best
    index of the generation before, and every crossover of its operator
    pass takes [pop[0]] and [pop[bestfitnessindex sel1]] as parents. *)
Theorem runner_up_carried_over (popsize : Z) (st0 st1 : State RandState)
    (bestindex0 : Z) (sel1 : Selection) (f0 : Q) (rest : list Q) (n : nat) :
  generation rand_Float64 rand_Intn popsize st0 bestindex0 = Some (Next st1 sel1) →
  evaluate popsize st1 = Some (f0 :: rest) →
  (0 <= f0)%Q → Forall (λ f, (f < f0)%Q) rest → ¬ (f0 == 1.0)%Q →
  let sel2 := mkSelection f0 0 0 (bestfitnessindex sel1) in
  let average := (sum (f0 :: rest) / inject_Z popsize)%Q in
  select (f0 :: rest) (bestfitnessindex sel1) = sel2 ∧
  generations rand_Float64 rand_Intn (S (S n)) popsize st0 bestindex0 =
    (st2 ← operators_loop rand_Float64 rand_Intn average sel2 popsize (f0 :: rest)
             (seqZ 0 (Z.of_nat (length (pop st1)))) st1;
     generations rand_Float64 rand_Intn n popsize st2 0) ∧
  ∀ crossrate i st,
    crossover_step rand_Float64 rand_Intn crossrate sel2 i st =
      let '(u, r) := rand_Float64 (rand st) in
      if Qle_bool u crossrate then
        let '(crossoverpoint, r') := rand_Intn QUEENS r in
        a ← load (pop st) 0;
        b ← load (pop st) (bestfitnessindex sel1);
        x ← crossover (heap st) a b crossoverpoint QUEENS;
        pop' ← store (pop st) i (snd x);
        Some (mkState (fst x) pop' r')
      else Some (mkState (heap st) (pop st) r).
Proof.
  intros Hgen Heval H0 Hrest Hne sel2 average.
  assert (select (f0 :: rest) (bestfitnessindex sel1) = sel2) as Hsel
    by (by apply select_only_first).
  split; [done|]. split; [|done].
  change (generations rand_Float64 rand_Intn (S (S n)) popsize st0 bestindex0)
    with (o ← generation rand_Float64 rand_Intn popsize st0 bestindex0;
          match o with
          | Break st' sel => Some (st', bestfitnessindex sel)
          | Next st' sel =>
              generations rand_Float64 rand_Intn (S n) popsize st'
                (bestfitnessindex sel)
          end).
  rewrite Hgen. simpl mbind.
  change (generations rand_Float64 rand_Intn (S n) popsize st1 (bestfitnessindex sel1))
    with (o ← generation rand_Float64 rand_Intn popsize st1 (bestfitnessindex sel1);
          match o with
          | Break st' sel => Some (st', bestfitnessindex sel)
          | Next st' sel =>
              generations rand_Float64 rand_Intn n popsize st'
                (bestfitnessindex sel)
          end).
  unfold generation at 1. rewrite Heval. simpl mbind.
  rewrite Hsel. unfold sel2 at 1. simpl bestfitness.
  rewrite Qeq_bool_false by done. fold average.
  destruct (operators_loop _ _ average sel2 popsize (f0 :: rest) _ st1); done.
Qed.

Lemma replace_individual_spec (i : Z) (st : State RandState) :
  0 ≤ i < Z.of_nat (length (pop st)) →
  ∃ st', replace_individual i st = Some st' ∧ rand st' = rand st ∧
         load (pop st') i = Some (length (heap st)) ∧
         heap st' !! length (heap st) = Some (replicate (Z.to_nat QUEENS) 0).
Proof.
  intros Hi. unfold replace_individual, alloc, NewSolution. cbv beta iota.
  destruct (store_is_Some (pop st) i (length (heap st)) Hi) as [pop' Hpop'].
  rewrite Hpop'. simpl. eexists. split; [done|]. simpl.
  split; [done|]. split.
  - rewrite (load_store _ _ _ _ _ Hpop') by lia. by rewrite decide_True.
  - by apply list_lookup_middle.
Qed.

(** C1 (what the code does).  Every replacement site of the operator pass
    stores in slot [i] the genome [NewSolution QUEENS] builds, which is all
    zeros, and draws nothing from the generator for it: once the site is
    reached the new genome is the same for every generator.  The three
    unconditional branches, the 50% branch and the new-population-rate
    branch are taken in turn. *)
Theorem replacement_writes_zero_genome (i : Z) (st : State RandState) :
  0 ≤ i < Z.of_nat (length (pop st)) →
  let zeros := replicate (Z.to_nat QUEENS) 0 in
  let sol := length (heap st) in
  (∃ st', replace_individual i st = Some st' ∧ rand st' = rand st ∧
          load (pop st') i = Some sol ∧ heap st' !! sol = Some zeros ∧
          replacement rand_Float64 0.75 0.25 i st = Some st' ∧
          replacement rand_Float64 0.85 0.55 i st = Some st' ∧
          replacement rand_Float64 0.95 0.65 i st = Some st') ∧
  (∀ u r, rand_Float64 (rand st) = (u, r) → Qle_bool u 0.5 = true →
     ∃ st', replacement rand_Float64 0.5 0.1 i st = Some st' ∧ rand st' = r ∧
            load (pop st') i = Some sol ∧ heap st' !! sol = Some zeros) ∧
  (∀ newpoprate u r, rand_Float64 (rand st) = (u, r) →
     Qle_bool u newpoprate = true →
     ∃ st', newpop_step rand_Float64 newpoprate i st = Some st' ∧ rand st' = r ∧
            load (pop st') i = Some sol ∧ heap st' !! sol = Some zeros).
Proof.
  intros Hi zeros sol. split; [|split].
  - destruct (replace_individual_spec i st Hi) as (st' & Hst' & Hr & Hp & Hh).
    exists st'. split_and!; done.
  - intros u r Hu Hle.
    destruct (replace_individual_spec i (mkState (heap st) (pop st) r) Hi)
      as (st' & Hst' & Hr & Hp & Hh).
    exists st'. split_and!; try done.
    change (replacement rand_Float64 0.5 0.1 i st)
      with (let '(u, r) := rand_Float64 (rand st) in
            if Qle_bool u 0.5
            then replace_individual i (mkState (heap st) (pop st) r)
            else Some (mkState (heap st) (pop st) r)).
    by rewrite Hu, Hle.
  - intros rate u r Hu Hle.
    destruct (replace_individual_spec i (mkState (heap st) (pop st) r) Hi)
      as (st' & Hst' & Hr & Hp & Hh).
    exists st'. split_and!; try done.
    unfold newpop_step. by rewrite Hu, Hle.
Qed.

End EngineSpec.

(** ** Decoding *)

Hypothesis BOARDSIZE_range : 0 < BOARDSIZE < 2 ^ 32.

Lemma square_bound : 0 < BOARDSIZE * BOARDSIZE < 2 ^ 64.
Proof. rewrite two64. rewrite two32 in BOARDSIZE_range. nia. Qed.

Lemma cell_index_bound x y :
  0 ≤ x < BOARDSIZE → 0 ≤ y < BOARDSIZE →
  0 ≤ y * BOARDSIZE + x < BOARDSIZE * BOARDSIZE.
Proof. nia. Qed.

Lemma col_cell x y : 0 ≤ x < BOARDSIZE → col (y * BOARDSIZE + x) = x.
Proof.
  intros. unfold col. rewrite Z.add_comm, Z.mod_add by lia.
  by apply Z.mod_small.
Qed.

Lemma row_cell x y : 0 ≤ x < BOARDSIZE → row (y * BOARDSIZE + x) = y.
Proof.
  intros. unfold row. rewrite Z.add_comm, Z.div_add by lia.
  rewrite Z.div_small by lia. lia.
Qed.

Lemma cell_decompose p :
  0 ≤ p < BOARDSIZE * BOARDSIZE →
  p = row p * BOARDSIZE + col p ∧ 0 ≤ col p < BOARDSIZE ∧ 0 ≤ row p < BOARDSIZE.
Proof.
  intros Hp. unfold row, col.
  pose proof (Z.div_mod p BOARDSIZE ltac:(lia)).
  pose proof (Z.mod_pos_bound p BOARDSIZE ltac:(lia)).
  split; [lia|]. split; [lia|]. split.
  - apply Z.div_pos; lia.
  - apply Z.div_lt_upper_bound; lia.
Qed.

Lemma attacks_sym p q : attacks p q = attacks q p.
Proof.
  unfold attacks.
  rewrite (Z.eqb_sym (col p)), (Z.eqb_sym (row p)),
    (Z.eqb_sym (col p - row p)), (Z.eqb_sym (col p + row p)). done.
Qed.

Lemma attacks_refl p : attacks p p = true.
Proof. unfold attacks. by rewrite Z.eqb_refl. Qed.

(** *** pos2xy decodes an index into its column and row *)

Lemma pos2xy_x_spec (k : nat) : ∀ x0 y i pos,
  0 ≤ i → i + Z.of_nat k < 2 ^ 64 →
  pos2xy_x (seqZ x0 (Z.of_nat k)) y i pos =
    if decide (i ≤ pos < i + Z.of_nat k)
    then inl (mkPosition (x0 + (pos - i)) y) else inr (i + Z.of_nat k).
Proof.
  induction k as [|k IH]; intros x0 y i pos Hi Hk.
  - rewrite seqZ_nil by lia. simpl. case_decide; [lia|]. f_equal. lia.
  - rewrite seqZ_cons by lia. simpl pos2xy_x.
    destruct (Z.eqb_spec i pos) as [->|Hne].
    + rewrite decide_True by lia. do 2 f_equal. lia.
    + rewrite wrap_small by lia.
      replace (Z.pred (Z.of_nat (S k))) with (Z.of_nat k) by lia.
      rewrite IH by lia.
      destruct (decide (i + 1 ≤ pos < i + 1 + Z.of_nat k)).
      * rewrite decide_True by lia. do 2 f_equal. lia.
      * rewrite decide_False by lia. f_equal. lia.
Qed.

Lemma pos2xy_y_spec (k : nat) : ∀ y0 i pos,
  0 ≤ i → i + Z.of_nat k * BOARDSIZE < 2 ^ 64 →
  i ≤ pos < i + Z.of_nat k * BOARDSIZE →
  pos2xy_y (seqZ y0 (Z.of_nat k)) i pos =
    mkPosition ((pos - i) mod BOARDSIZE) (y0 + (pos - i) / BOARDSIZE).
Proof.
  induction k as [|k IH]; intros y0 i pos Hi Hk Hpos; [lia|].
  rewrite seqZ_cons by lia. simpl pos2xy_y.
  replace BOARDSIZE with (Z.of_nat (Z.to_nat BOARDSIZE)) at 1 by lia.
  rewrite pos2xy_x_spec by lia.
  rewrite Z2Nat.id by lia.
  destruct (decide (i ≤ pos < i + BOARDSIZE)).
  - rewrite Z.mod_small, Z.div_small by lia. f_equal; lia.
  - replace (Z.pred (Z.of_nat (S k))) with (Z.of_nat k) by lia.
    rewrite IH by lia.
    replace (pos - (i + BOARDSIZE)) with ((pos - i) + (-1) * BOARDSIZE) by lia.
    rewrite Z.mod_add, Z.div_add by lia. f_equal. lia.
Qed.

Lemma pos2xy_spec pos :
  0 ≤ pos < BOARDSIZE * BOARDSIZE →
  pos2xy pos = mkPosition (col pos) (row pos).
Proof.
  intros Hpos. unfold pos2xy, col, row.
  pose proof square_bound.
  replace BOARDSIZE with (Z.of_nat (Z.to_nat BOARDSIZE)) at 1 by lia.
  rewrite pos2xy_y_spec by (rewrite ?Z2Nat.id; lia).
  by rewrite Z.sub_0_r, Z.add_0_l.
Qed.

(** *** The covering pass *)

Ltac zbool :=
  repeat match goal with
    | |- context [Z.eqb ?a ?b] => destruct (Z.eqb_spec a b)
    | |- context [Z.ltb ?a ?b] => destruct (Z.ltb_spec a b)
    | |- context [Z.leb ?a ?b] => destruct (Z.leb_spec a b)
    end; simpl.

Lemma cover_cell_writes w h m o y x d :
  cover_cell w h m o y x d = store_all d (cell_writes w h m o y x) COVERED.
Proof.
  unfold cover_cell, cell_writes. rewrite store_all_app.
  destruct (store_all d _ COVERED); simpl; [|done].
  by rewrite store_all_app.
Qed.

Lemma cover_x_writes w h m o y xs : ∀ d,
  cover_x w h m o y xs d = store_all d (xs ≫= cell_writes w h m o y) COVERED.
Proof.
  induction xs as [|x xs IH]; intros d; [done|].
  simpl. rewrite cover_cell_writes, store_all_app.
  destruct (store_all d _ COVERED); simpl; [apply IH|done].
Qed.

Lemma cover_y_writes w h m o ys : ∀ d,
  cover_y w h m o ys d =
  store_all d (y ← ys; seqZ 0 w ≫= cell_writes w h m o y) COVERED.
Proof.
  induction ys as [|y ys IH]; intros d; [done|].
  simpl. rewrite cover_x_writes, store_all_app.
  destruct (store_all d _ COVERED); simpl; [apply IH|done].
Qed.

Lemma cover_eq b usepos :
  cover b usepos = store_all (data b) (cover_writes b usepos) COVERED.
Proof. unfold cover, cover_writes. apply cover_y_writes. Qed.

Section CoverCell.

Variables ox oy x y : Z.
Hypothesis Hox : 0 ≤ ox < BOARDSIZE.
Hypothesis Hoy : 0 ≤ oy < BOARDSIZE.
Hypothesis Hx : 0 ≤ x < BOARDSIZE.
Hypothesis Hy : 0 ≤ y < BOARDSIZE.

Lemma cover_rowcol_eq :
  cover_rowcol BOARDSIZE (mkPosition ox oy) x y =
  if (ox =? x) || (oy =? y) then [y * BOARDSIZE + x] else [].
Proof.
  unfold cover_rowcol. simpl. pose proof two32 as E32. pose proof two64 as E64.
  destruct ((ox =? x) || (oy =? y)); [|done].
  rewrite (wrap_small (y * BOARDSIZE)) by nia.
  rewrite wrap_small by nia. done.
Qed.

Lemma cover_diag1_eq :
  cover_diag1 BOARDSIZE BOARDSIZE (mkPosition ox oy) x y =
  if (x =? y) && (0 <=? y + ox - oy) && (y + ox - oy <? BOARDSIZE)
  then [y * BOARDSIZE + (y + ox - oy)] else [].
Proof.
  unfold cover_diag1. simpl. pose proof two32 as E32. pose proof two64 as E64.
  destruct (Z.eqb_spec x y) as [->|]; [|done]. simpl.
  rewrite wrap_sub_l.
  destruct (decide (0 ≤ y + ox - oy)).
  - rewrite (wrap_small (y + ox - oy)) by lia.
    zbool; try lia; try done.
    rewrite (wrap_small (y * BOARDSIZE)) by nia.
    rewrite wrap_small by nia. done.
  - rewrite (wrap_neg (y + ox - oy)) by lia.
    zbool; try lia; try done.
Qed.

Lemma cover_diag2_eq :
  cover_diag2 BOARDSIZE BOARDSIZE (wrap (BOARDSIZE - 1)) (mkPosition ox oy) x y =
  if (BOARDSIZE - 1 - x =? y) && (0 <=? ox + oy - y) && (ox + oy - y <? BOARDSIZE)
  then [y * BOARDSIZE + (ox + oy - y)] else [].
Proof.
  unfold cover_diag2. simpl. pose proof two32 as E32. pose proof two64 as E64.
  rewrite (wrap_small (BOARDSIZE - 1)) by lia.
  rewrite (wrap_small (BOARDSIZE - 1 - x)) by lia.
  destruct (Z.eqb_spec (BOARDSIZE - 1 - x) y) as [Hxy|]; [|done]. simpl.
  rewrite wrap_sub_r, wrap_add_l, wrap_sub_l.
  replace (x - (BOARDSIZE - 1 - ox) + oy) with (ox + oy - y) by lia.
  replace (y + oy - oy) with y by lia.
  rewrite (wrap_small y) by lia.
  destruct (decide (0 ≤ ox + oy - y)).
  - rewrite (wrap_small (ox + oy - y)) by lia.
    zbool; try lia; try done.
    rewrite (wrap_small (y * BOARDSIZE)) by nia.
    rewrite wrap_small by nia. done.
  - rewrite (wrap_neg (ox + oy - y)) by lia.
    zbool; try lia; try done.
Qed.

(** Every store of the loop body hits a cell of the board that lies on a
    line through the target. *)
Lemma cell_writes_sound j :
  j ∈ cell_writes BOARDSIZE BOARDSIZE (wrap (BOARDSIZE - 1)) (mkPosition ox oy) y x →
  ∃ cx cy, 0 ≤ cx < BOARDSIZE ∧ 0 ≤ cy < BOARDSIZE ∧ j = cy * BOARDSIZE + cx ∧
           (cx = ox ∨ cy = oy ∨ cx - cy = ox - oy ∨ cx + cy = ox + oy).
Proof.
  unfold cell_writes.
  rewrite cover_rowcol_eq, cover_diag1_eq, cover_diag2_eq, !elem_of_app.
  intros [Hj|[Hj|Hj]]; revert Hj; zbool; intros Hj;
    try (by apply elem_of_nil in Hj); apply list_elem_of_singleton in Hj.
  all: first [ exists x, y; split_and!; [lia..|] ; lia
             | exists (y + ox - oy), y; split_and!; [lia..|]; lia
             | exists (ox + oy - y), y; split_and!; [lia..|]; lia ].
Qed.

(** Conversely, each kind of line is covered from a suitable iteration. *)
Lemma cell_writes_rowcol :
  x = ox ∨ y = oy →
  y * BOARDSIZE + x ∈
    cell_writes BOARDSIZE BOARDSIZE (wrap (BOARDSIZE - 1)) (mkPosition ox oy) y x.
Proof.
  intros Hline. unfold cell_writes. rewrite cover_rowcol_eq, !elem_of_app. left.
  zbool; try (exfalso; lia); apply list_elem_of_singleton; lia.
Qed.

Lemma cell_writes_diag1 cx :
  0 ≤ cx < BOARDSIZE → x = y → cx - y = ox - oy →
  y * BOARDSIZE + cx ∈
    cell_writes BOARDSIZE BOARDSIZE (wrap (BOARDSIZE - 1)) (mkPosition ox oy) y x.
Proof.
  intros Hcx Hxy Hline. unfold cell_writes.
  rewrite cover_diag1_eq, !elem_of_app. right; left.
  zbool; try (exfalso; lia); apply list_elem_of_singleton; lia.
Qed.

Lemma cell_writes_diag2 cx :
  0 ≤ cx < BOARDSIZE → x = BOARDSIZE - 1 - y → cx + y = ox + oy →
  y * BOARDSIZE + cx ∈
    cell_writes BOARDSIZE BOARDSIZE (wrap (BOARDSIZE - 1)) (mkPosition ox oy) y x.
Proof.
  intros Hcx Hxy Hline. unfold cell_writes.
  rewrite cover_diag2_eq, !elem_of_app. right; right.
  zbool; try (exfalso; lia); apply list_elem_of_singleton; lia.
Qed.

End CoverCell.

Lemma attacks_true p q :
  attacks p q = true ↔
  col p = col q ∨ row p = row q ∨ col p - row p = col q - row q
  ∨ col p + row p = col q + row q.
Proof. unfold attacks. rewrite !orb_true_iff, !Z.eqb_eq. tauto. Qed.

(** The covering pass stores exactly to the cells of the board that the
    target attacks (the target cell included). *)
Lemma cover_writes_spec b usepos j :
  board_wf b → 0 ≤ usepos < BOARDSIZE * BOARDSIZE →
  j ∈ cover_writes b usepos ↔
  0 ≤ j < BOARDSIZE * BOARDSIZE ∧ attacks usepos j = true.
Proof.
  intros [Hw Hlen] Hu. unfold cover_writes. rewrite Hw, pos2xy_spec by done.
  destruct (cell_decompose usepos Hu) as (_ & Hcol & Hrow).
  rewrite attacks_true. split.
  - intros Hj. apply list_elem_of_bind in Hj as (y & Hj & Hy).
    apply list_elem_of_bind in Hj as (x & Hj & Hx).
    apply elem_of_seqZ in Hx, Hy.
    apply cell_writes_sound in Hj as (cx & cy & Hcx & Hcy & -> & Hline); [|lia..].
    split; [by apply cell_index_bound|].
    rewrite col_cell, row_cell by done. lia.
  - intros [Hj Hline].
    destruct (cell_decompose j Hj) as (Ej & Hcj & Hrj).
    set (cx := col j) in *. set (cy := row j) in *.
    assert (∃ x, 0 ≤ x < BOARDSIZE ∧
      cy * BOARDSIZE + cx ∈ cell_writes BOARDSIZE BOARDSIZE
        (wrap (BOARDSIZE - 1)) (mkPosition (col usepos) (row usepos)) cy x)
      as (x & Hx & Hin).
    { destruct Hline as [H|[H|[H|H]]].
      - exists cx. split; [done|]. apply cell_writes_rowcol; lia.
      - exists cx. split; [done|]. apply cell_writes_rowcol; lia.
      - exists cy. split; [done|]. apply cell_writes_diag1; lia.
      - exists (BOARDSIZE - 1 - cy). split; [lia|].
        apply cell_writes_diag2; lia. }
    rewrite Ej. apply list_elem_of_bind. exists cy. split.
    + apply list_elem_of_bind. exists x. split; [done|].
      apply elem_of_seqZ. lia.
    + apply elem_of_seqZ. lia.
Qed.

Lemma cover_spec b usepos :
  board_wf b → 0 ≤ usepos < BOARDSIZE * BOARDSIZE →
  ∃ d, cover b usepos = Some d ∧ length d = length (data b) ∧
       ∀ j, 0 ≤ j < BOARDSIZE * BOARDSIZE →
            load d j = if attacks usepos j then Some COVERED else load (data b) j.
Proof.
  intros Hwf Hu. rewrite cover_eq.
  destruct (store_all_spec (cover_writes b usepos) (data b) COVERED)
    as (d & Hd & Hlen & Hload).
  { apply Forall_forall. intros j Hj.
    apply cover_writes_spec in Hj as [Hj _]; [|done..].
    destruct Hwf as [_ ->]. done. }
  exists d. split; [done|]. split; [done|].
  intros j Hj. rewrite Hload by lia.
  pose proof (cover_writes_spec b usepos j Hwf Hu) as Hiff.
  case_decide as Hin.
  - apply Hiff in Hin as [_ ->]. done.
  - destruct (attacks usepos j) eqn:Ha; [|done].
    exfalso. apply Hin, Hiff. done.
Qed.

(** *** The scan for the target cell *)

Lemma free_count_cons c d :
  free_count (c :: d) = (if decide (c = FREE) then 1 else 0) + free_count d.
Proof.
  unfold free_count. rewrite filter_cons.
  case_decide; simpl length; lia.
Qed.

Lemma free_count_nonneg d : 0 ≤ free_count d.
Proof. unfold free_count. lia. Qed.

Section Scan.

Variables (b : Board) (t : Z).

Lemma place_scan_fail (m : nat) : ∀ k f,
  0 ≤ k → Z.of_nat (length (data b)) = k + Z.of_nat m →
  k + Z.of_nat m < 2 ^ 64 → 0 ≤ f ≤ k →
  (t < f ∨ free_count (drop (Z.to_nat k) (data b)) ≤ t - f) →
  place_scan (seqZ k (Z.of_nat m)) b t f = Some (b, (0, NoAvailablePosition)).
Proof.
  induction m as [|m IH]; intros k f Hk Hlen Hmax Hf Ht.
  - by rewrite seqZ_nil.
  - rewrite seqZ_cons by lia. simpl place_scan.
    destruct (lookup_lt_is_Some_2 (data b) (Z.to_nat k) ltac:(lia)) as [c Hc].
    rewrite load_lookup, Hc by done. simpl.
    rewrite (drop_S _ _ _ Hc), free_count_cons in Ht.
    pose proof (free_count_nonneg (drop (S (Z.to_nat k)) (data b))).
    replace (Z.pred (Z.of_nat (S m))) with (Z.of_nat m) by lia.
    assert (Z.to_nat (Z.succ k) = S (Z.to_nat k)) as Ek by lia.
    destruct (decide (c = FREE)) as [->|Hc'].
    + rewrite bool_decide_eq_true_2 by done.
      destruct (Z.eqb_spec t f); [lia|]. simpl.
      rewrite wrap_small by lia.
      apply IH; [lia..|]. rewrite Ek. lia.
    + rewrite bool_decide_eq_false_2 by done.
      rewrite andb_false_r.
      apply IH; [lia..|]. rewrite Ek. lia.
Qed.

Lemma place_scan_ok (m : nat) : ∀ k f,
  0 ≤ k → Z.of_nat (length (data b)) = k + Z.of_nat m →
  k + Z.of_nat m < 2 ^ 64 → 0 ≤ f ≤ k →
  f ≤ t → t - f < free_count (drop (Z.to_nat k) (data b)) →
  ∃ usepos, k ≤ usepos < k + Z.of_nat m ∧ load (data b) usepos = Some FREE ∧
            place_scan (seqZ k (Z.of_nat m)) b t f = place_at b usepos.
Proof.
  induction m as [|m IH]; intros k f Hk Hlen Hmax Hf Hft Ht.
  - rewrite drop_ge in Ht by lia. unfold free_count in Ht. simpl in Ht. lia.
  - rewrite seqZ_cons by lia. simpl place_scan.
    destruct (lookup_lt_is_Some_2 (data b) (Z.to_nat k) ltac:(lia)) as [c Hc].
    rewrite load_lookup, Hc by done. simpl.
    rewrite (drop_S _ _ _ Hc), free_count_cons in Ht.
    replace (Z.pred (Z.of_nat (S m))) with (Z.of_nat m) by lia.
    assert (Z.to_nat (Z.succ k) = S (Z.to_nat k)) as Ek by lia.
    destruct (decide (c = FREE)) as [->|Hc'].
    + rewrite bool_decide_eq_true_2 by done.
      destruct (Z.eqb_spec t f) as [->|Hne]; simpl.
      * exists k. split; [lia|]. split; [|done].
        by rewrite load_lookup.
      * rewrite wrap_small by lia.
        destruct (IH (Z.succ k) (f + 1)) as (u & Hu & Hfree & Hscan);
          [lia..| |].
        { rewrite Ek. lia. }
        exists u. split; [lia|done].
    + rewrite bool_decide_eq_false_2 by done.
      rewrite andb_false_r.
      destruct (IH (Z.succ k) f) as (u & Hu & Hfree & Hscan); [lia..| |].
      { rewrite Ek. lia. }
      exists u. split; [lia|done].
Qed.

End Scan.

(** *** place on a well-formed board *)

Lemma place_at_spec b usepos :
  board_wf b → 0 ≤ usepos < BOARDSIZE * BOARDSIZE →
  ∃ b', place_at b usepos = Some (b', (usepos, err_nil)) ∧ board_wf b' ∧
        ∀ j, 0 ≤ j < BOARDSIZE * BOARDSIZE →
          load (data b') j =
            if decide (j = usepos) then Some QUEEN
            else if attacks usepos j then Some COVERED else load (data b) j.
Proof.
  intros Hwf Hu. unfold place_at.
  destruct (cover_spec b usepos Hwf Hu) as (d & -> & Hlen & Hload). simpl.
  destruct Hwf as [Hw Hsz].
  destruct (store_is_Some d usepos QUEEN) as [d' Hd']; [lia|].
  rewrite Hd'. simpl. eexists. split; [done|]. split.
  - split; [done|]. simpl. rewrite (store_length _ _ _ _ Hd'). lia.
  - intros j Hj. simpl.
    rewrite (load_store _ _ _ _ _ Hd') by lia.
    case_decide; [done|]. by apply Hload.
Qed.

Lemma place_fail b t :
  board_wf b → t < 0 ∨ free_count (data b) ≤ t →
  place b t = Some (b, (0, NoAvailablePosition)).
Proof.
  intros [Hw Hsz] Ht. unfold place. rewrite Hw.
  pose proof square_bound.
  rewrite wrap_small by lia.
  replace (BOARDSIZE * BOARDSIZE)
    with (Z.of_nat (Z.to_nat (BOARDSIZE * BOARDSIZE))) by lia.
  apply place_scan_fail; [lia..|]. simpl. rewrite drop_0. lia.
Qed.

Lemma place_ok b t :
  board_wf b → 0 ≤ t < free_count (data b) →
  ∃ usepos, 0 ≤ usepos < BOARDSIZE * BOARDSIZE ∧
            load (data b) usepos = Some FREE ∧ place b t = place_at b usepos.
Proof.
  intros [Hw Hsz] Ht. unfold place. rewrite Hw.
  pose proof square_bound.
  rewrite wrap_small by lia.
  destruct (place_scan_ok b t (Z.to_nat (BOARDSIZE * BOARDSIZE)) 0 0)
    as (u & Hu & Hfree & Hscan); [lia..| |].
  { simpl. rewrite drop_0. lia. }
  rewrite Z2Nat.id in Hscan, Hu by lia.
  exists u. split; [lia|done].
Qed.

(** [place] never panics on a well-formed board, and its two outcomes are
    told apart by the number of free cells. *)
Lemma place_cases b t :
  board_wf b →
  (t < 0 ∨ free_count (data b) ≤ t) ∧
    place b t = Some (b, (0, NoAvailablePosition))
  ∨ 0 ≤ t < free_count (data b) ∧
    ∃ usepos b', 0 ≤ usepos < BOARDSIZE * BOARDSIZE ∧
      load (data b) usepos = Some FREE ∧
      place b t = Some (b', (usepos, err_nil)) ∧
      place_at b usepos = Some (b', (usepos, err_nil)) ∧
      board_wf b' ∧
      ∀ j, 0 ≤ j < BOARDSIZE * BOARDSIZE →
        load (data b') j =
          if decide (j = usepos) then Some QUEEN
          else if attacks usepos j then Some COVERED else load (data b) j.
Proof.
  intros Hwf.
  destruct (decide (0 ≤ t < free_count (data b))) as [Ht|Ht].
  - right. split; [done|].
    destruct (place_ok b t Hwf Ht) as (u & Hu & Hfree & Hplace).
    destruct (place_at_spec b u Hwf Hu) as (b' & Hat & Hwf' & Hload).
    exists u, b'. rewrite Hplace. done.
  - left. split; [lia|]. apply place_fail; [done|lia].
Qed.

(** *** Boards reached while decoding *)

Lemma NewBoard_wf : board_wf (NewBoard BOARDSIZE).
Proof.
  pose proof square_bound. split; [done|]. simpl.
  rewrite length_replicate, wrap_small by lia. lia.
Qed.

Lemma NewBoard_load p c :
  load (data (NewBoard BOARDSIZE)) p = Some c → c = FREE.
Proof.
  simpl. unfold load. case_bool_decide; [|done].
  intros [-> _]%lookup_replicate. done.
Qed.

Lemma NewBoard_ok : board_ok (NewBoard BOARDSIZE).
Proof.
  split; [apply NewBoard_wf|]. split.
  - intros p q _ _ Hp. by apply NewBoard_load in Hp.
  - intros p q _ Hp. by apply NewBoard_load in Hp.
Qed.

Lemma queen_count_cons c d :
  queen_count (c :: d) = (if decide (c = QUEEN) then 1 else 0) + queen_count d.
Proof.
  unfold queen_count. rewrite filter_cons.
  case_decide; simpl length; lia.
Qed.

Lemma queen_count_ext d : ∀ d',
  length d = length d' →
  (∀ i, d !! i = Some QUEEN ↔ d' !! i = Some QUEEN) →
  queen_count d = queen_count d'.
Proof.
  induction d as [|c d IH]; intros [|c' d'] Hlen Hext; try done.
  rewrite !queen_count_cons. rewrite (IH d').
  - pose proof (Hext 0%nat) as H0. simpl in H0.
    repeat case_decide; subst; try done.
    + exfalso. destruct H0 as [H0 _]. specialize (H0 eq_refl). congruence.
    + exfalso. destruct H0 as [_ H0]. specialize (H0 eq_refl). congruence.
  - simpl in Hlen. lia.
  - intros i. apply (Hext (S i)).
Qed.

Lemma queen_count_insert d : ∀ (i : nat) c,
  d !! i = Some c → c ≠ QUEEN →
  queen_count (<[i := QUEEN]> d) = queen_count d + 1.
Proof.
  induction d as [|c0 d IH]; intros [|i] c Hi Hc; try done.
  - simpl in Hi. simplify_eq. simpl. rewrite !queen_count_cons.
    rewrite decide_True, decide_False by done. lia.
  - simpl in Hi. simpl. rewrite !queen_count_cons, (IH i c) by done. lia.
Qed.

(** What a successful placement does to a board of the decode. *)
Lemma place_success_ok b usepos b' :
  board_ok b → board_wf b' → 0 ≤ usepos < BOARDSIZE * BOARDSIZE →
  load (data b) usepos = Some FREE →
  (∀ j, 0 ≤ j < BOARDSIZE * BOARDSIZE →
     load (data b') j =
       if decide (j = usepos) then Some QUEEN
       else if attacks usepos j then Some COVERED else load (data b) j) →
  board_ok b' ∧
  (∀ q, load (data b) q = Some QUEEN →
        attacks usepos q = false ∧ load (data b') q = Some QUEEN) ∧
  load (data b') usepos = Some QUEEN ∧
  queen_count (data b') = queen_count (data b) + 1.
Proof.
  intros (Hwf & Hcov & Hna) Hwf' Hu Hfree Hload.
  assert (Hsz : Z.of_nat (length (data b)) = BOARDSIZE * BOARDSIZE) by apply Hwf.
  assert (Hsz' : Z.of_nat (length (data b')) = BOARDSIZE * BOARDSIZE) by apply Hwf'.
  assert (Hold : ∀ q, load (data b) q = Some QUEEN →
                      attacks usepos q = false ∧ load (data b') q = Some QUEEN).
  { intros q Hq. pose proof (load_Some_range _ _ _ Hq) as Hqr.
    assert (attacks usepos q = false) as Ha.
    { destruct (attacks usepos q) eqn:Ha; [|done]. exfalso.
      apply (Hcov q usepos); [lia|lia|done| |done].
      by rewrite attacks_sym. }
    split; [done|]. rewrite Hload by lia.
    rewrite decide_False by congruence. by rewrite Ha. }
  assert (Hnew : ∀ p, load (data b') p = Some QUEEN →
                      p = usepos ∨ p ≠ usepos ∧ load (data b) p = Some QUEEN).
  { intros p Hp. pose proof (load_Some_range _ _ _ Hp) as Hpr.
    rewrite Hload in Hp by lia.
    destruct (decide (p = usepos)); [by left|right].
    split; [done|]. by destruct (attacks usepos p). }
  split; [|split; [done|split]].
  - split; [done|]. split.
    + intros p q Hp Hq Hpq Ha. rewrite Hload by done.
      destruct (decide (q = usepos)); [done|].
      destruct (attacks usepos q) eqn:Hauq; [done|].
      destruct (Hnew p Hpq) as [->|[_ Hp']]; [congruence|].
      by apply (Hcov p q).
    + intros p q Hne Hp Hq.
      destruct (Hnew p Hp) as [->|[Hpu Hp']], (Hnew q Hq) as [->|[Hqu Hq']].
      * done.
      * by apply Hold.
      * rewrite attacks_sym. by apply Hold.
      * by apply Hna.
  - rewrite Hload by done. by rewrite decide_True.
  - rewrite <- (queen_count_insert (data b) (Z.to_nat usepos) FREE); [|by rewrite <- load_lookup by lia|done].
    apply queen_count_ext; [rewrite length_insert; lia|].
    intros i. destruct (decide (i < length (data b))%nat) as [Hi|Hi].
    + rewrite <- (load_of_nat (data b')), Hload by lia.
      destruct (decide (i = Z.to_nat usepos)) as [->|Hne].
      * rewrite decide_True by lia.
        rewrite list_lookup_insert_eq by lia. done.
      * rewrite decide_False by lia.
        rewrite list_lookup_insert_ne by lia.
        rewrite load_of_nat.
        destruct (attacks usepos (Z.of_nat i)) eqn:Ha; [|done].
        split; [done|]. intros Hq. rewrite <- load_of_nat in Hq.
        apply Hold in Hq as [Hq _]. congruence.
    + rewrite !lookup_ge_None_2; [done|rewrite length_insert; lia|lia].
Qed.

Lemma place_step b t :
  board_ok b →
  (t < 0 ∨ free_count (data b) ≤ t) ∧
    place b t = Some (b, (0, NoAvailablePosition))
  ∨ 0 ≤ t < free_count (data b) ∧
    ∃ usepos b', place b t = Some (b', (usepos, err_nil)) ∧
      load (data b) usepos = Some FREE ∧ board_ok b' ∧
      (∀ q, load (data b) q = Some QUEEN → load (data b') q = Some QUEEN) ∧
      (∃ d, cover b usepos = Some d ∧
            ∀ q, load (data b) q = Some QUEEN → load d q = Some QUEEN) ∧
      load (data b') usepos = Some QUEEN ∧
      queen_count (data b') = queen_count (data b) + 1 ∧
      (∀ q, load (data b) q = Some COVERED → load (data b') q = Some COVERED).
Proof.
  intros Hok. pose proof Hok as (Hwf & _).
  destruct (place_cases b t Hwf)
    as [[Ht Hp]|(Ht & u & b' & Hu & Hfree & Hp & _ & Hwf' & Hload)]; [by left|].
  right. split; [done|]. exists u, b'.
  destruct (place_success_ok b u b' Hok Hwf' Hu Hfree Hload)
    as (Hok' & Hold & Hq & Hcount).
  split_and!; try done.
  - intros q Hq'. by apply Hold.
  - destruct (cover_spec b u Hwf Hu) as (d & Hd & _ & Hd').
    exists d. split; [done|]. intros q Hq'.
    pose proof (load_Some_range _ _ _ Hq') as Hr.
    destruct Hwf as [_ Hsz]. rewrite Hd' by lia.
    destruct (Hold q Hq') as [-> _]. done.
  - intros q Hq'. pose proof (load_Some_range _ _ _ Hq') as Hr.
    destruct Hwf as [_ Hsz]. rewrite Hload by lia.
    rewrite decide_False by congruence.
    by destruct (attacks u q).
Qed.

Lemma generateBoard_loop_app pre : ∀ rest b n,
  generateBoard_loop (pre ++ rest) b n =
  r ← generateBoard_loop pre b n; generateBoard_loop rest (fst r) (snd r).
Proof.
  induction pre as [|g pre IH]; intros rest b n; [done|].
  simpl. destruct (place b g) as [r|]; simpl; [apply IH|done].
Qed.

(** The decode loop from a board of the decode: it returns, and keeps the
    ledger of the queens it marks. *)
Lemma generateBoard_loop_spec genes : ∀ b n,
  board_ok b →
  ∃ b' n', generateBoard_loop genes b n = Some (b', n') ∧ board_ok b' ∧
    (∀ q, load (data b) q = Some QUEEN → load (data b') q = Some QUEEN) ∧
    Forall (λ u, load (data b) u ≠ Some QUEEN ∧ load (data b') u = Some QUEEN)
      (placements genes b) ∧
    NoDup (placements genes b) ∧
    (length (placements genes b) ≤ length genes)%nat ∧
    queen_count (data b') =
      queen_count (data b) + Z.of_nat (length (placements genes b)) ∧
    (0 ≤ n → n + Z.of_nat (length genes) < 2 ^ 64 →
     n' = n + Z.of_nat (length (placements genes b))).
Proof.
  induction genes as [|g genes IH]; intros b n Hok.
  - exists b, n. simpl.
    split_and!; try done; try lia; try apply NoDup_nil_2; intros; lia.
  - simpl generateBoard_loop. simpl placements.
    destruct (place_step b g Hok)
      as [[Ht ->]|(Ht & u & b1 & -> & Hfree & Hok1 & Hkeep & _ & Hq & Hcnt & _)].
    + simpl. destruct (IH b n Hok)
        as (b' & n' & -> & Hok' & Hkeep' & Hall & Hnd & Hlen & Hcnt' & Hn').
      exists b', n'. split_and!; try done.
      * simpl. lia.
      * intros. apply Hn'; [done|]. simpl in *. lia.
    + simpl.
      destruct (IH b1 (wrap (n + 1)) Hok1)
        as (b' & n' & -> & Hok' & Hkeep' & Hall & Hnd & Hlen & Hcnt' & Hn').
      exists b', n'. split_and!; try done.
      * intros q Hq'. by apply Hkeep', Hkeep.
      * apply Forall_cons. split.
        -- split; [congruence|]. by apply Hkeep'.
        -- eapply Forall_impl; [exact Hall|]. simpl.
           intros v [Hv1 Hv2]. split; [|done].
           intros Hv. by apply Hv1, Hkeep.
      * apply NoDup_cons. split; [|done].
        intros Hin. rewrite Forall_forall in Hall.
        destruct (Hall u Hin) as [Hu _]. done.
      * simpl. lia.
      * rewrite Hcnt', Hcnt. simpl length. lia.
      * intros Hn Hmax. simpl length in *.
        rewrite wrap_small in Hn' by lia.
        rewrite Hn' by lia. lia.
Qed.

(** *** Ratios of machine integers *)

Lemma ratio_bounds n q :
  0 < q → 0 ≤ n ≤ q →
  (0 <= inject_Z n / inject_Z q)%Q ∧ (inject_Z n / inject_Z q <= 1)%Q.
Proof.
  intros Hq Hn. destruct q as [|p|p]; try lia.
  rewrite Qmake_Qdiv. unfold Qle. simpl. lia.
Qed.

Lemma ratio_eq_1 n q :
  0 < q → (inject_Z n / inject_Z q == 1)%Q ↔ n = q.
Proof.
  intros Hq. destruct q as [|p|p]; try lia.
  rewrite Qmake_Qdiv. unfold Qeq. simpl. lia.
Qed.

Lemma queen_count_replicate_FREE k : queen_count (replicate k FREE) = 0.
Proof.
  induction k as [|k IH]; [done|].
  simpl replicate. rewrite queen_count_cons, decide_False by done. lia.
Qed.

(** *** The decoder with its board on the heap *)

Lemma generateBoard_heap_loop_eq genes : ∀ h (p : nat) board n,
  h !! p = Some board →
  generateBoard_heap_loop genes h p n =
  r ← generateBoard_loop genes board n; Some (<[p := fst r]> h, snd r).
Proof.
  induction genes as [|g genes IH]; intros h p board n Hp.
  - simpl. by rewrite list_insert_id.
  - simpl. unfold place_heap. rewrite Hp. simpl.
    destruct (place board g) as [[b1 [u e]]|]; simpl; [|done].
    rewrite (IH _ p b1).
    + destruct (generateBoard_loop genes b1 _) as [[b2 n2]|]; simpl; [|done].
      by rewrite list_insert_insert_eq.
    + apply list_lookup_insert_eq. by eapply lookup_lt_Some.
Qed.

Lemma generateBoard_heap_eq h sol :
  generateBoard_heap h sol =
  r ← generateBoard sol; Some (h ++ [fst r], (length h, snd r)).
Proof.
  unfold generateBoard_heap, NewBoard_heap, generateBoard.
  rewrite (generateBoard_heap_loop_eq sol _ _ (NewBoard BOARDSIZE))
    by apply list_lookup_middle, eq_refl.
  destruct (generateBoard_loop sol _ 0) as [[b n]|]; simpl; [|done].
  replace (length h) with (length h + 0)%nat at 1 by lia.
  by rewrite insert_app_r.
Qed.

(** ** The claims about decoding *)

(** C4.  While a genome is decoded no cell is marked QUEEN twice, and the
    cells marked hold QUEEN on the final board.  At every step of the
    decode, whatever the outcome of the placement, a cell holding QUEEN
    keeps it and a cell holding COVERED keeps it; a successful placement
    has a FREE cell as its target, and its covering pass leaves every
    QUEEN in place. *)
Theorem decode_marks_consistent (sol : Solution) :
  Z.of_nat (length sol) = QUEENS →
  Forall (λ g, 0 ≤ g < BOARDSIZE * BOARDSIZE) sol →
  NoDup (placements sol (NewBoard BOARDSIZE)) ∧
  (∃ b n, generateBoard sol = Some (b, n) ∧
          ∀ u, u ∈ placements sol (NewBoard BOARDSIZE) →
               load (data b) u = Some QUEEN) ∧
  ∀ pre g post, sol = pre ++ g :: post →
    ∃ b n b' usepos e,
      generateBoard_loop pre (NewBoard BOARDSIZE) 0 = Some (b, n) ∧
      place b g = Some (b', (usepos, e)) ∧
      (∀ q, load (data b) q = Some QUEEN → load (data b') q = Some QUEEN) ∧
      (∀ q, load (data b) q = Some COVERED → load (data b') q = Some COVERED) ∧
      (e = err_nil →
         load (data b) usepos = Some FREE ∧
         ∃ d, cover b usepos = Some d ∧
              ∀ q, load (data b) q = Some QUEEN → load d q = Some QUEEN).
Proof.
  intros _ _.
  destruct (generateBoard_loop_spec sol (NewBoard BOARDSIZE) 0 NewBoard_ok)
    as (b & n & Hrun & _ & _ & Hall & Hnd & _).
  split; [done|]. split.
  { exists b, n. split; [done|]. intros u Hu.
    rewrite Forall_forall in Hall. by apply Hall. }
  intros pre g post ->.
  destruct (generateBoard_loop_spec pre (NewBoard BOARDSIZE) 0 NewBoard_ok)
    as (b1 & n1 & Hpre & Hok1 & _).
  destruct (place_step b1 g Hok1)
    as [[_ Hp]|(_ & u & b2 & Hp & Hfree & _ & Hkeep & Hcover & _ & _ & Hcov)].
  - exists b1, n1, b1, 0, NoAvailablePosition. split_and!; done.
  - exists b1, n1, b2, u, err_nil. split_and!; done.
Qed.

(** C5.  On a board of the program, [place] returns the error exactly when
    the ordinal is at least the number of FREE cells; the board is then
    unchanged, and the decoder goes on with the remaining genes without
    counting a queen. *)
Theorem place_unavailable (b : Board) (targetpos : Z) :
  board_wf b → 0 ≤ targetpos < 2 ^ 64 →
  ∃ b' usepos e, place b targetpos = Some (b', (usepos, e)) ∧
    (e = NoAvailablePosition ↔ free_count (data b) ≤ targetpos) ∧
    (e = NoAvailablePosition →
       b' = b ∧
       ∀ genes queenCounter,
         generateBoard_loop (targetpos :: genes) b queenCounter =
         generateBoard_loop genes b queenCounter).
Proof.
  intros Hwf Ht.
  destruct (place_cases b targetpos Hwf)
    as [[Hge Hp]|(Hlt & u & b' & _ & _ & Hp & _)].
  - exists b, 0, NoAvailablePosition. split; [done|]. split.
    + split; [lia|done].
    + intros _. split; [done|]. intros genes n. simpl. by rewrite Hp.
  - exists b', u, err_nil. split; [done|]. split; [|done].
    split; [done|lia].
Qed.

(** C6.  On a board of the program [place] never indexes outside the N²
    cells, whatever the cells hold and whatever the ordinal.  When it
    succeeds at [usepos], the covering pass is the sequence of stores
    [cover_writes], each of them to a cell [y * N + x] with both
    coordinates in [0, N) lying on the row, the column or a diagonal of the
    target; no other cell of the board changes. *)
Theorem place_in_bounds (b : Board) (targetpos : Z) :
  board_wf b →
  ∃ b' usepos e, place b targetpos = Some (b', (usepos, e)) ∧
    length (data b') = length (data b) ∧
    (e = err_nil →
       0 ≤ usepos < BOARDSIZE * BOARDSIZE ∧
       cover b usepos = store_all (data b) (cover_writes b usepos) COVERED ∧
       Forall (λ j, ∃ x y, 0 ≤ x < BOARDSIZE ∧ 0 ≤ y < BOARDSIZE ∧
                      j = y * BOARDSIZE + x ∧
                      (x = col usepos ∨ y = row usepos
                       ∨ x - y = col usepos - row usepos
                       ∨ x + y = col usepos + row usepos))
              (cover_writes b usepos) ∧
       ∀ j, load (data b') j ≠ load (data b) j →
            0 ≤ j < BOARDSIZE * BOARDSIZE ∧ attacks usepos j = true).
Proof.
  intros Hwf.
  destruct (place_cases b targetpos Hwf)
    as [[_ Hp]|(_ & u & b' & Hu & _ & Hp & _ & Hwf' & Hload)].
  - exists b, 0, NoAvailablePosition. split; [done|]. split; done.
  - exists b', u, err_nil. split; [done|].
    pose proof Hwf as [Hw Hsz]. pose proof Hwf' as [Hw' Hsz'].
    split; [lia|]. intros _. split; [done|]. split; [apply cover_eq|]. split.
    + apply Forall_forall. intros j Hj.
      apply cover_writes_spec in Hj as [Hj Ha]; [|done..].
      destruct (cell_decompose j Hj) as (Ej & Hc & Hr).
      apply attacks_true in Ha.
      exists (col j), (row j). split_and!; first [exact Ej|lia].
    + intros j Hne.
      destruct (decide (0 ≤ j < BOARDSIZE * BOARDSIZE)) as [Hj|Hj].
      * split; [done|]. rewrite Hload in Hne by done.
        destruct (decide (j = u)) as [->|]; [apply attacks_refl|].
        by destruct (attacks u j).
      * exfalso. apply Hne. unfold load.
        case_bool_decide; [|done].
        rewrite !lookup_ge_None_2; [done|lia..].
Qed.

(** C8.  Decoding depends on the genome alone: from every heap of boards,
    however many decodes came before, a decode allocates one fresh board,
    leaves the others as they are, and produces the same board, the same
    count and the same fitness. *)
Theorem decode_deterministic (sol : Solution) :
  ∃ b n, generateBoard sol = Some (b, n) ∧
    ∀ h, generateBoard_heap h sol = Some (h ++ [b], (length h, n)) ∧
         fitness_heap h sol =
           Some (h ++ [b], (inject_Z n / inject_Z QUEENS)%Q).
Proof.
  destruct (generateBoard_loop_spec sol (NewBoard BOARDSIZE) 0 NewBoard_ok)
    as (b & n & Hrun & _).
  exists b, n. split; [done|]. intros h.
  unfold fitness_heap. rewrite generateBoard_heap_eq.
  unfold generateBoard. rewrite Hrun. done.
Qed.

(** ** Further properties of [pos2xy] and [place] *)

Lemma pos2xy_y_outside (k : nat) : ∀ y0 i pos,
  0 ≤ i → i + Z.of_nat k * BOARDSIZE < 2 ^ 64 →
  ¬ (i ≤ pos < i + Z.of_nat k * BOARDSIZE) →
  pos2xy_y (seqZ y0 (Z.of_nat k)) i pos = mkPosition 255 255.
Proof.
  induction k as [|k IH]; intros y0 i pos Hi Hk Hpos.
  - by rewrite seqZ_nil.
  - rewrite seqZ_cons by lia. simpl pos2xy_y.
    replace BOARDSIZE with (Z.of_nat (Z.to_nat BOARDSIZE)) at 1 by lia.
    rewrite pos2xy_x_spec by lia.
    rewrite Z2Nat.id by lia.
    rewrite decide_False by lia.
    replace (Z.pred (Z.of_nat (S k))) with (Z.of_nat k) by lia.
    apply IH; lia.
Qed.

(** X1.  [pos2xy] inverts the row-major index: the cell in column [x] and
    row [y] of the board, at index [y * N + x], is decoded to [(x, y)]. *)
Theorem pos2xy_roundtrip (x y : Z) :
  0 ≤ x < BOARDSIZE → 0 ≤ y < BOARDSIZE →
  pos2xy (y * BOARDSIZE + x) = mkPosition x y.
Proof.
  intros Hx Hy. rewrite pos2xy_spec by (by apply cell_index_bound).
  by rewrite col_cell, row_cell.
Qed.

(** X2.  An index that is not on the board is decoded to the sentinel
    position (255, 255). *)
Theorem pos2xy_off_board (pos : Z) :
  BOARDSIZE * BOARDSIZE ≤ pos →
  pos2xy pos = mkPosition 255 255.
Proof.
  intros Hpos. unfold pos2xy. pose proof square_bound.
  replace BOARDSIZE with (Z.of_nat (Z.to_nat BOARDSIZE)) at 1 by lia.
  apply pos2xy_y_outside; rewrite ?Z2Nat.id; lia.
Qed.

Lemma place_scan_nth (b : Board) (t : Z) (m : nat) : ∀ k f,
  0 ≤ k → Z.of_nat (length (data b)) = k + Z.of_nat m →
  k + Z.of_nat m < 2 ^ 64 → 0 ≤ f ≤ k →
  f ≤ t → t - f < free_count (drop (Z.to_nat k) (data b)) →
  ∃ usepos, k ≤ usepos < k + Z.of_nat m ∧ load (data b) usepos = Some FREE ∧
            free_count (take (Z.to_nat (usepos - k)) (drop (Z.to_nat k) (data b)))
              = t - f ∧
            place_scan (seqZ k (Z.of_nat m)) b t f = place_at b usepos.
Proof.
  induction m as [|m IH]; intros k f Hk Hlen Hmax Hf Hft Ht.
  - rewrite drop_ge in Ht by lia. unfold free_count in Ht. simpl in Ht. lia.
  - rewrite seqZ_cons by lia. simpl place_scan.
    destruct (lookup_lt_is_Some_2 (data b) (Z.to_nat k) ltac:(lia)) as [c Hc].
    rewrite load_lookup, Hc by done. simpl.
    rewrite (drop_S _ _ _ Hc), free_count_cons in Ht.
    rewrite (drop_S _ _ _ Hc).
    replace (Z.pred (Z.of_nat (S m))) with (Z.of_nat m) by lia.
    assert (Z.to_nat (Z.succ k) = S (Z.to_nat k)) as Ek by lia.
    assert (∀ u, Z.succ k ≤ u →
              Z.to_nat (u - k) = S (Z.to_nat (u - Z.succ k))) as Eu by lia.
    destruct (decide (c = FREE)) as [->|Hc'].
    + rewrite bool_decide_eq_true_2 by done.
      destruct (Z.eqb_spec t f) as [->|Hne]; simpl.
      * exists k. split; [lia|]. split; [by rewrite load_lookup|].
        split; [|done]. rewrite Z.sub_diag. simpl. unfold free_count. simpl. lia.
      * rewrite wrap_small by lia.
        destruct (IH (Z.succ k) (f + 1)) as (u & Hu & Hfree & Hcnt & Hscan);
          [lia..| |].
        { rewrite Ek. lia. }
        exists u. split; [lia|]. split; [done|]. split; [|done].
        rewrite Eu by lia. simpl take. rewrite free_count_cons.
        rewrite decide_True by done. rewrite Ek in Hcnt. lia.
    + rewrite bool_decide_eq_false_2 by done.
      rewrite andb_false_r.
      destruct (IH (Z.succ k) f) as (u & Hu & Hfree & Hcnt & Hscan); [lia..| |].
      { rewrite Ek. lia. }
      exists u. split; [lia|]. split; [done|]. split; [|done].
      rewrite Eu by lia. simpl take. rewrite free_count_cons.
      rewrite decide_False by done. rewrite Ek in Hcnt. lia.
Qed.

(** A successful [place], spelled out: where the queen goes and what the
    board holds afterwards. *)
Lemma place_success b t b' usepos :
  board_wf b → place b t = Some (b', (usepos, err_nil)) →
  0 ≤ t < free_count (data b) ∧
  0 ≤ usepos < BOARDSIZE * BOARDSIZE ∧
  load (data b) usepos = Some FREE ∧
  free_count (take (Z.to_nat usepos) (data b)) = t ∧
  board_wf b' ∧
  ∀ j, 0 ≤ j < BOARDSIZE * BOARDSIZE →
    load (data b') j =
      if decide (j = usepos) then Some QUEEN
      else if attacks usepos j then Some COVERED else load (data b) j.
Proof.
  intros Hwf Hplace. pose proof Hwf as [Hw Hsz]. pose proof square_bound.
  destruct (decide (0 ≤ t < free_count (data b))) as [Ht|Ht].
  2:{ rewrite place_fail in Hplace by (done || lia). simplify_eq. }
  split; [done|].
  destruct (place_scan_nth b t (Z.to_nat (BOARDSIZE * BOARDSIZE)) 0 0)
    as (u & Hu & Hfree & Hcnt & Hscan); [lia..| |].
  { simpl. rewrite drop_0. lia. }
  rewrite Z2Nat.id in Hscan, Hu by lia.
  simpl in Hcnt. rewrite drop_0, Z.sub_0_r, Z.sub_0_r in Hcnt.
  destruct (place_at_spec b u Hwf ltac:(lia)) as (b0 & Hat & Hwf0 & Hload).
  unfold place in Hplace. rewrite Hw, wrap_small, Hscan, Hat in Hplace by lia.
  simplify_eq. split_and!; try done; lia.
Qed.

(** X3.  The ordinal counts free cells only: a successful [place] puts the
    queen on a FREE cell with exactly [targetpos] FREE cells before it in
    row-major order. *)
Theorem place_selects_nth_free (b b' : Board) (targetpos usepos : Z) :
  board_wf b → place b targetpos = Some (b', (usepos, err_nil)) →
  0 ≤ usepos < BOARDSIZE * BOARDSIZE ∧
  load (data b) usepos = Some FREE ∧
  free_count (take (Z.to_nat usepos) (data b)) = targetpos.
Proof.
  intros Hwf Hplace.
  destruct (place_success b targetpos b' usepos Hwf Hplace)
    as (_ & Hu & Hfree & Hcnt & _).
  done.
Qed.

(** X4.  After a successful [place] the target holds QUEEN, every other
    cell of the board on the target's row, column or one of its two
    diagonals holds COVERED, and all remaining cells are as before. *)
Theorem place_marks_board (b b' : Board) (targetpos usepos : Z) :
  board_wf b → place b targetpos = Some (b', (usepos, err_nil)) →
  width b' = width b ∧ length (data b') = length (data b) ∧
  ∀ j, 0 ≤ j < BOARDSIZE * BOARDSIZE →
    load (data b') j =
      if decide (j = usepos) then Some QUEEN
      else if attacks usepos j then Some COVERED else load (data b) j.
Proof.
  intros Hwf Hplace.
  destruct (place_success b targetpos b' usepos Hwf Hplace)
    as (_ & _ & _ & _ & [Hw' Hsz'] & Hload).
  destruct Hwf as [Hw Hsz]. split; [congruence|]. split; [lia|done].
Qed.

Lemma free_count_replicate_FREE k : free_count (replicate k FREE) = Z.of_nat k.
Proof.
  induction k as [|k IH]; [done|].
  simpl replicate. rewrite free_count_cons, decide_True by done. lia.
Qed.

(** X5.  On the empty board the ordinal is the absolute index: the first
    gene [t < N²] of any genome puts its queen on cell [t]. *)
Theorem place_on_empty_board (t : Z) :
  0 ≤ t < BOARDSIZE * BOARDSIZE →
  ∃ b', place (NewBoard BOARDSIZE) t = Some (b', (t, err_nil)).
Proof.
  intros Ht. pose proof square_bound.
  assert (free_count (data (NewBoard BOARDSIZE)) = BOARDSIZE * BOARDSIZE) as Hfc.
  { simpl. rewrite free_count_replicate_FREE, wrap_small by lia. lia. }
  destruct (place_cases (NewBoard BOARDSIZE) t NewBoard_wf)
    as [[Hge _]|(_ & u & b' & Hu & _ & Hp & _)]; [lia|].
  destruct (place_success _ _ _ _ NewBoard_wf Hp) as (_ & _ & _ & Hcnt & _).
  simpl in Hcnt. rewrite take_replicate, free_count_replicate_FREE in Hcnt.
  rewrite wrap_small in Hcnt by lia.
  exists b'. rewrite Hp. do 3 f_equal. lia.
Qed.

Lemma free_count_le_length d : free_count d ≤ Z.of_nat (length d).
Proof. unfold free_count. pose proof (length_filter (λ c, c = FREE) d). lia. Qed.

Lemma free_count_mono d : ∀ d',
  length d = length d' →
  (∀ i, d' !! i = Some FREE → d !! i = Some FREE) →
  free_count d' ≤ free_count d.
Proof.
  induction d as [|c d IH]; intros [|c' d'] Hlen Hsub; try done.
  rewrite !free_count_cons.
  assert (free_count d' ≤ free_count d) as Hle.
  { apply IH; [simpl in Hlen; lia|]. intros i. apply (Hsub (S i)). }
  pose proof (Hsub 0%nat) as H0. simpl in H0.
  repeat case_decide; subst; try lia.
  specialize (H0 eq_refl). congruence.
Qed.

Lemma free_count_drop d : ∀ d' (u : nat),
  length d = length d' →
  (∀ i, d' !! i = Some FREE → d !! i = Some FREE) →
  d !! u = Some FREE → d' !! u ≠ Some FREE →
  free_count d' < free_count d.
Proof.
  induction d as [|c d IH]; intros [|c' d'] u Hlen Hsub Hu Hu'; try done.
  rewrite !free_count_cons.
  assert (∀ i, d' !! i = Some FREE → d !! i = Some FREE) as Hsub'
    by (intros i; apply (Hsub (S i))).
  destruct u as [|u].
  - simpl in Hu, Hu'. simplify_eq.
    pose proof (free_count_mono d d' ltac:(simpl in Hlen; lia) Hsub').
    repeat case_decide; subst; try done; lia.
  - simpl in Hu, Hu'.
    pose proof (IH d' u ltac:(simpl in Hlen; lia) Hsub' Hu Hu') as Hlt.
    pose proof (Hsub 0%nat) as H0. simpl in H0.
    repeat case_decide; subst; try lia.
    specialize (H0 eq_refl). congruence.
Qed.

(** X6.  Free cells are only consumed: a successful [place] leaves strictly
    fewer FREE cells, and a cell FREE afterwards was FREE before and is not
    attacked by the new queen. *)
Theorem place_consumes_free (b b' : Board) (targetpos usepos : Z) :
  board_wf b → place b targetpos = Some (b', (usepos, err_nil)) →
  free_count (data b') < free_count (data b) ∧
  ∀ j, load (data b') j = Some FREE →
       load (data b) j = Some FREE ∧ attacks usepos j = false.
Proof.
  intros Hwf Hplace.
  destruct (place_success b targetpos b' usepos Hwf Hplace)
    as (_ & Hu & Hfree & _ & [Hw' Hsz'] & Hload).
  destruct Hwf as [Hw Hsz].
  assert (∀ j, load (data b') j = Some FREE →
               load (data b) j = Some FREE ∧ attacks usepos j = false) as Hsub.
  { intros j Hj. pose proof (load_Some_range _ _ _ Hj) as Hr.
    rewrite Hload in Hj by lia.
    case_decide; [done|]. by destruct (attacks usepos j). }
  split; [|done].
  apply (free_count_drop _ _ (Z.to_nat usepos)); [lia| | |].
  - intros i Hi. rewrite <- load_of_nat in Hi. apply Hsub in Hi as [Hi _].
    by rewrite load_of_nat in Hi.
  - by rewrite <- load_lookup by lia.
  - rewrite <- load_lookup, Hload by lia. by rewrite decide_True.
Qed.

(** X7.  A gene that is not below N² never places a queen, whatever the
    board holds: [place] returns the error and the same board. *)
Theorem place_ordinal_too_large (b : Board) (targetpos : Z) :
  board_wf b → BOARDSIZE * BOARDSIZE ≤ targetpos →
  place b targetpos = Some (b, (0, NoAvailablePosition)).
Proof.
  intros Hwf Ht. apply place_fail; [done|]. right.
  pose proof (free_count_le_length (data b)). destruct Hwf as [_ Hsz]. lia.
Qed.

(** X8.  Once no FREE cell is left the rest of the genome is wasted: the
    decode loop returns the board and the counter as they are. *)
Theorem generateBoard_loop_full_board (genes : list Z) (b : Board) (n : Z) :
  board_wf b → free_count (data b) = 0 →
  generateBoard_loop genes b n = Some (b, n).
Proof.
  intros Hwf Hfull. induction genes as [|g genes IH]; [done|].
  simpl. rewrite place_fail by (done || lia). simpl. exact IH.
Qed.

(** *** No more queens than rows *)

Lemma queen_count_indices d : ∀ pre : list PosType,
  length (filter (λ c, c = QUEEN) d) =
  length (filter (λ i, (pre ++ d) !! i = Some QUEEN) (seq (length pre) (length d))).
Proof.
  induction d as [|c d IH]; intros pre; [done|].
  simpl length at 3. simpl seq. rewrite !filter_cons.
  rewrite (list_lookup_middle pre d c (length pre) eq_refl).
  specialize (IH (pre ++ [c])).
  rewrite <- app_assoc, length_app in IH. simpl in IH.
  replace (length pre + 1)%nat with (S (length pre)) in IH by lia.
  destruct (decide (c = QUEEN)) as [->|Hc].
  - rewrite decide_True by done. simpl. by rewrite IH.
  - rewrite decide_False by congruence. done.
Qed.

Lemma non_attacking_count b :
  board_wf b → non_attacking b → queen_count (data b) ≤ BOARDSIZE.
Proof.
  intros [Hw Hsz] Hna. unfold queen_count.
  rewrite (queen_count_indices (data b) []). simpl.
  set (qs := filter (λ i, data b !! i = Some QUEEN) (seq 0 (length (data b)))).
  set (f := λ i : nat, Z.to_nat (row (Z.of_nat i))).
  assert (∀ i, i ∈ qs → load (data b) (Z.of_nat i) = Some QUEEN ∧
                         0 ≤ Z.of_nat i < BOARDSIZE * BOARDSIZE) as Hqs.
  { intros i Hi. apply list_elem_of_filter in Hi as [Hq Hi].
    apply elem_of_seq in Hi. rewrite load_of_nat. split; [done|lia]. }
  assert (NoDup (f <$> qs)) as Hnd.
  { apply NoDup_fmap_2_strong; [|apply NoDup_filter, NoDup_seq].
    intros x y Hx Hy Hf.
    destruct (Hqs x Hx) as [Hqx Hrx], (Hqs y Hy) as [Hqy Hry].
    destruct (decide (x = y)) as [|Hne]; [done|]. exfalso.
    assert (attacks (Z.of_nat x) (Z.of_nat y) = false) as Ha
      by (apply Hna; [lia|done..]).
    assert (attacks (Z.of_nat x) (Z.of_nat y) = true) as Ha'.
    { apply attacks_true. right; left.
      destruct (cell_decompose _ Hrx) as (_ & _ & Hx'),
               (cell_decompose _ Hry) as (_ & _ & Hy').
      unfold f in Hf. lia. }
    congruence. }
  assert (length (f <$> qs) ≤ length (seq 0 (Z.to_nat BOARDSIZE)))%nat as Hle.
  { apply submseteq_length, NoDup_submseteq; [done|].
    intros r Hr. apply list_elem_of_fmap in Hr as (i & -> & Hi).
    destruct (Hqs i Hi) as [_ Hri].
    destruct (cell_decompose _ Hri) as (_ & _ & Hrow).
    apply elem_of_seq. unfold f. lia. }
  rewrite length_fmap, length_seq in Hle. lia.
Qed.

(** X19.  Decoding never places more queens than the board has rows: the
    counter [generateBoard] returns is the number of QUEEN cells of its
    board and is at most N. *)
Theorem generateBoard_at_most_N (sol : Solution) :
  Z.of_nat (length sol) < 2 ^ 64 →
  ∃ b n, generateBoard sol = Some (b, n) ∧
         queen_count (data b) = n ∧ 0 ≤ n ≤ BOARDSIZE.
Proof.
  intros Hlen.
  destruct (generateBoard_loop_spec sol (NewBoard BOARDSIZE) 0 NewBoard_ok)
    as (b & n & Hrun & (Hwf & _ & Hna) & _ & _ & _ & _ & Hcnt & Hn).
  exists b, n. split; [done|].
  specialize (Hn ltac:(lia) ltac:(lia)).
  simpl in Hcnt. rewrite queen_count_replicate_FREE in Hcnt.
  pose proof (non_attacking_count b Hwf Hna).
  split; lia.
Qed.

(** *** Printing a board *)

Lemma cell_text_char t : cell_text t = [cell_char t].
Proof. by destruct t. Qed.

Lemma cell_char_inj t1 t2 : cell_char t1 = cell_char t2 → t1 = t2.
Proof. by destruct t1, t2. Qed.

Lemma String_x_spec b y :
  board_wf b → 0 ≤ y < BOARDSIZE → ∀ xs s,
  Forall (λ x, 0 ≤ x < BOARDSIZE) xs →
  String_x b y xs s =
  Some (s ++ ((λ x, cell_char (default FREE (data b !! Z.to_nat (y * BOARDSIZE + x))))
                <$> xs)).
Proof.
  intros [Hw Hsz] Hy. pose proof two32 as E32. pose proof two64 as E64.
  induction xs as [|x xs IH]; intros s Hxs.
  - simpl. by rewrite app_nil_r.
  - apply Forall_cons in Hxs as [Hx Hxs]. simpl String_x. rewrite Hw.
    rewrite (wrap_small (y * BOARDSIZE)) by nia.
    rewrite wrap_small by nia.
    destruct (lookup_lt_is_Some_2 (data b) (Z.to_nat (y * BOARDSIZE + x))
                ltac:(nia)) as [t Ht].
    rewrite load_lookup, Ht by nia. simpl.
    rewrite (IH _ Hxs), cell_text_char, <- app_assoc, Ht. done.
Qed.

Lemma String_y_spec b :
  board_wf b → ∀ ys s, Forall (λ y, 0 ≤ y < BOARDSIZE) ys →
  String_y b ys s = Some (s ++ (ys ≫= row_text b)).
Proof.
  intros Hwf. induction ys as [|y ys IH]; intros s Hys.
  - simpl. by rewrite app_nil_r.
  - apply Forall_cons in Hys as [Hy Hys]. simpl String_y.
    destruct Hwf as [Hw Hsz]. rewrite Hw.
    rewrite (String_x_spec b y (conj Hw Hsz) Hy)
      by (apply Forall_seqZ; lia).
    simpl. rewrite IH by done. unfold row_text at 2.
    by rewrite <- !app_assoc.
Qed.

Lemma Board_String_spec b :
  board_wf b →
  Board_String b = Some ((seqZ 0 BOARDSIZE ≫= row_text b) ++ [newline]).
Proof.
  intros Hwf. unfold Board_String. pose proof Hwf as [Hw _]. rewrite Hw.
  rewrite String_y_spec by (done || apply Forall_seqZ; lia). done.
Qed.

Lemma length_row_text b y : length (row_text b y) = S (Z.to_nat BOARDSIZE).
Proof.
  unfold row_text. rewrite length_app, length_fmap, length_seqZ. simpl. lia.
Qed.

Lemma length_bind_blocks {A B} (f : A → list B) (L : nat) ys :
  (∀ y, length (f y) = L) → length (ys ≫= f) = (length ys * L)%nat.
Proof.
  intros HL. induction ys as [|y ys IH]; [done|].
  rewrite bind_cons, length_app, HL, IH. simpl. lia.
Qed.

Lemma lookup_bind_blocks {A B} (f : A → list B) (L : nat) ys :
  (∀ y, length (f y) = L) → ∀ (k : nat) y (r : nat),
  ys !! k = Some y → (r < L)%nat → (ys ≫= f) !! (k * L + r)%nat = f y !! r.
Proof.
  intros HL. induction ys as [|y0 ys IH]; intros k y r Hk Hr; [done|].
  rewrite bind_cons. destruct k as [|k]; simpl in Hk.
  - simplify_eq. simpl. apply lookup_app_l. by rewrite HL.
  - rewrite lookup_app_r by (rewrite HL; lia). rewrite HL.
    replace (S k * L + r - L)%nat with (k * L + r)%nat by lia.
    by apply IH.
Qed.

Lemma row_text_cell b x y t :
  0 ≤ x < BOARDSIZE → data b !! Z.to_nat (y * BOARDSIZE + x) = Some t →
  row_text b y !! Z.to_nat x = Some (cell_char t).
Proof.
  intros Hx Ht. unfold row_text.
  rewrite lookup_app_l by (rewrite length_fmap, length_seqZ; lia).
  rewrite list_lookup_fmap, lookup_seqZ_lt by lia. simpl.
  rewrite Z2Nat.id, Z.add_0_l by lia. by rewrite Ht.
Qed.

Lemma row_text_newline b y :
  row_text b y !! Z.to_nat BOARDSIZE = Some newline.
Proof.
  unfold row_text. apply list_lookup_middle.
  by rewrite length_fmap, length_seqZ.
Qed.

(** The text of a board: length, cells and line ends. *)
Lemma Board_String_layout b :
  board_wf b →
  ∃ s, Board_String b = Some s ∧
    Z.of_nat (length s) = BOARDSIZE * (BOARDSIZE + 1) + 1 ∧
    (∀ p t, 0 ≤ p < BOARDSIZE * BOARDSIZE → load (data b) p = Some t →
            s !! text_pos p = Some (cell_char t)) ∧
    (∀ y, 0 ≤ y < BOARDSIZE →
          s !! Z.to_nat (y * (BOARDSIZE + 1) + BOARDSIZE) = Some newline) ∧
    s !! Z.to_nat (BOARDSIZE * (BOARDSIZE + 1)) = Some newline.
Proof.
  intros Hwf. rewrite Board_String_spec by done. eexists. split; [done|].
  pose proof (length_bind_blocks (row_text b) _ (seqZ 0 BOARDSIZE)
                (length_row_text b)) as Hlen.
  rewrite length_seqZ in Hlen.
  assert (∀ y r : Z, 0 ≤ y < BOARDSIZE → 0 ≤ r ≤ BOARDSIZE →
            Z.to_nat (y * (BOARDSIZE + 1) + r)
            = (Z.to_nat y * S (Z.to_nat BOARDSIZE) + Z.to_nat r)%nat) as Epos.
  { intros y r Hy Hr. nia. }
  assert (∀ y r : Z, 0 ≤ y < BOARDSIZE → 0 ≤ r ≤ BOARDSIZE →
            ((seqZ 0 BOARDSIZE ≫= row_text b) ++ [newline])
              !! Z.to_nat (y * (BOARDSIZE + 1) + r)
            = row_text b y !! Z.to_nat r) as Hrow.
  { intros y r Hy Hr. rewrite lookup_app_l by (rewrite Hlen; nia).
    rewrite Epos by done.
    apply lookup_bind_blocks; [apply length_row_text| |lia].
    rewrite lookup_seqZ_lt by lia. f_equal. lia. }
  split_and!.
  - rewrite length_app, Hlen. simpl. nia.
  - intros p t Hp Ht. destruct (cell_decompose p Hp) as (Ep & Hc & Hr).
    unfold text_pos. rewrite Hrow by lia.
    apply row_text_cell; [done|]. rewrite <- Ep. by rewrite <- load_lookup by lia.
  - intros y Hy. rewrite Hrow by lia. apply row_text_newline.
  - apply list_lookup_middle. rewrite Hlen. nia.
Qed.

(** X20.  [String] never fails on a board of the program.  The text has
    N rows of N + 1 bytes and a final newline; cell [p] is printed at
    offset [row p * (N + 1) + col p] as a blank (FREE), a [q] (QUEEN) or a
    dot (COVERED), and every row ends with a newline. *)
Theorem Board_String_draws_cells (b : Board) :
  board_wf b →
  ∃ s, Board_String b = Some s ∧
    Z.of_nat (length s) = BOARDSIZE * (BOARDSIZE + 1) + 1 ∧
    (∀ p t, 0 ≤ p < BOARDSIZE * BOARDSIZE → load (data b) p = Some t →
            s !! text_pos p = Some (cell_char t)) ∧
    (∀ y, 0 ≤ y < BOARDSIZE →
          s !! Z.to_nat (y * (BOARDSIZE + 1) + BOARDSIZE) = Some newline) ∧
    s !! Z.to_nat (BOARDSIZE * (BOARDSIZE + 1)) = Some newline.
Proof. apply Board_String_layout. Qed.

(** X21.  Printing loses nothing: two boards of the program with the same
    text are the same board. *)
Theorem Board_String_injective (b1 b2 : Board) :
  board_wf b1 → board_wf b2 →
  Board_String b1 = Board_String b2 → b1 = b2.
Proof.
  intros Hwf1 Hwf2 Heq.
  destruct (Board_String_layout b1 Hwf1) as (s1 & Hs1 & _ & Hc1 & _).
  destruct (Board_String_layout b2 Hwf2) as (s2 & Hs2 & _ & Hc2 & _).
  rewrite Hs1, Hs2 in Heq. simplify_eq.
  destruct Hwf1 as [Hw1 Hsz1], Hwf2 as [Hw2 Hsz2].
  destruct b1 as [w1 d1], b2 as [w2 d2]. simpl in *. subst w1 w2. f_equal.
  apply list_eq. intros i.
  destruct (decide (i < length d1)%nat) as [Hi|Hi].
  - destruct (lookup_lt_is_Some_2 d1 i Hi) as [t1 Ht1].
    destruct (lookup_lt_is_Some_2 d2 i ltac:(lia)) as [t2 Ht2].
    rewrite Ht1, Ht2. f_equal. apply cell_char_inj.
    assert (Some (cell_char t1) = Some (cell_char t2)) as E; [|by simplify_eq].
    rewrite <- (Hc1 (Z.of_nat i) t1), <- (Hc2 (Z.of_nat i) t2);
      [done|lia|by rewrite load_of_nat|lia|by rewrite load_of_nat].
  - rewrite !lookup_ge_None_2; [done|lia..].
Qed.

(** Every queen of a decoded board was placed by one of the genes. *)
Lemma queens_are_placements genes : ∀ b n b' n' q,
  board_wf b → generateBoard_loop genes b n = Some (b', n') →
  load (data b') q = Some QUEEN →
  load (data b) q = Some QUEEN ∨ q ∈ placements genes b.
Proof.
  induction genes as [|g genes IH]; intros b n b' n' q Hwf Hrun Hq.
  - simpl in Hrun. simplify_eq. by left.
  - simpl in Hrun. simpl placements.
    destruct (place_cases b g Hwf)
      as [[_ Hp]|(_ & u & b1 & Hu & _ & Hp & _ & Hwf1 & Hload)];
      rewrite Hp in Hrun |- *; simpl in Hrun.
    + by eapply IH.
    + destruct (IH _ _ _ _ q Hwf1 Hrun Hq) as [Hq1|Hin].
      * pose proof (load_Some_range _ _ _ Hq1) as Hr.
        destruct Hwf1 as [_ Hsz1]. rewrite Hload in Hq1 by lia.
        destruct (decide (q = u)) as [->|Hne]; [right; by left|].
        left. by destruct (attacks u q).
      * right. by right.
Qed.

(** X22.  [Solution.String] never fails, and it shows a [q] exactly on the
    cells where the decode placed a queen. *)
Theorem Solution_String_shows_queens (sol : Solution) :
  ∃ s, Solution_String sol = Some s ∧
    Z.of_nat (length s) = BOARDSIZE * (BOARDSIZE + 1) + 1 ∧
    ∀ p, 0 ≤ p < BOARDSIZE * BOARDSIZE →
         (s !! text_pos p = Some "q"%char ↔ p ∈ placements sol (NewBoard BOARDSIZE)).
Proof.
  destruct (generateBoard_loop_spec sol (NewBoard BOARDSIZE) 0 NewBoard_ok)
    as (b & n & Hrun & (Hwf & _) & _ & Hall & _).
  destruct (Board_String_layout b Hwf) as (s & Hs & Hlen & Hcells & _).
  exists s. unfold Solution_String, generateBoard. rewrite Hrun. simpl.
  split; [done|]. split; [done|]. intros p Hp.
  destruct Hwf as [Hw Hsz].
  destruct (lookup_lt_is_Some_2 (data b) (Z.to_nat p) ltac:(lia)) as [t Ht].
  rewrite <- load_lookup in Ht by lia.
  rewrite (Hcells p t Hp Ht). split.
  - intros Hq. assert (t = QUEEN) as -> by (destruct t; by simplify_eq).
    destruct (queens_are_placements sol _ _ _ _ p NewBoard_wf Hrun Ht)
      as [Hfree|Hin]; [|done].
    by apply NewBoard_load in Hfree.
  - intros Hin. rewrite Forall_forall in Hall.
    destruct (Hall p Hin) as [_ Hq]. rewrite Hq in Ht. by simplify_eq.
Qed.

Hypothesis QUEENS_range : 0 < QUEENS < 2 ^ 64.

(** C2.  For a genome of length Q with genes in [0, N²), the fitness is 1
    exactly when the decoded board holds Q queens, no two of them on a
    common row, column or diagonal. *)
Theorem fitness_one_iff_solution (sol : Solution) :
  Z.of_nat (length sol) = QUEENS →
  Forall (λ g, 0 ≤ g < BOARDSIZE * BOARDSIZE) sol →
  ∃ b n f, generateBoard sol = Some (b, n) ∧ fitness sol = Some f ∧
    ((f == 1)%Q ↔ queen_count (data b) = QUEENS ∧ non_attacking b).
Proof.
  intros Hlen _.
  destruct (generateBoard_loop_spec sol (NewBoard BOARDSIZE) 0 NewBoard_ok)
    as (b & n & Hrun & (_ & _ & Hna) & _ & _ & _ & _ & Hcnt & Hn).
  exists b, n, (inject_Z n / inject_Z QUEENS)%Q.
  unfold fitness, generateBoard. rewrite Hrun. simpl.
  split; [done|]. split; [done|].
  rewrite ratio_eq_1 by lia.
  simpl in Hcnt. rewrite queen_count_replicate_FREE in Hcnt.
  rewrite Hn by lia. rewrite Hcnt. split; [|tauto].
  intros H. split; [lia|done].
Qed.

(** C7.  For a genome of length Q with genes in [0, N²), the fitness is
    the number of successful placements of the decode divided by Q, and
    lies in [0, 1]. *)
Theorem fitness_unit_interval (sol : Solution) :
  Z.of_nat (length sol) = QUEENS →
  Forall (λ g, 0 ≤ g < BOARDSIZE * BOARDSIZE) sol →
  ∃ b n f, generateBoard sol = Some (b, n) ∧ fitness sol = Some f ∧
    n = Z.of_nat (length (placements sol (NewBoard BOARDSIZE))) ∧
    f = (inject_Z n / inject_Z QUEENS)%Q ∧ (0 <= f)%Q ∧ (f <= 1)%Q.
Proof.
  intros Hlen _.
  destruct (generateBoard_loop_spec sol (NewBoard BOARDSIZE) 0 NewBoard_ok)
    as (b & n & Hrun & _ & _ & _ & _ & Hle & _ & Hn).
  exists b, n, (inject_Z n / inject_Z QUEENS)%Q.
  unfold fitness, generateBoard. rewrite Hrun. simpl.
  specialize (Hn ltac:(lia) ltac:(lia)).
  split; [done|]. split; [done|]. split; [lia|]. split; [done|].
  apply ratio_bounds; lia.
Qed.

(** ** The engine keeps its population well formed *)

Lemma genome_ok_zeros : genome_ok (NewSolution QUEENS).
Proof.
  pose proof square_bound. split.
  - unfold NewSolution. rewrite length_replicate. lia.
  - apply Forall_replicate. lia.
Qed.

Lemma genome_ok_insert s (n : nat) v :
  genome_ok s → 0 ≤ v < BOARDSIZE * BOARDSIZE → genome_ok (<[n := v]> s).
Proof.
  intros [Hlen Hall] Hv. split.
  - by rewrite length_insert.
  - by apply Forall_insert.
Qed.

Lemma set_Some (h : list Solution) sol s i v :
  h !! sol = Some s → 0 ≤ i < Z.of_nat (length s) →
  set h sol i v = Some (<[sol := <[Z.to_nat i := v]> s]> h).
Proof.
  intros Hs Hi. unfold set, store. rewrite Hs. simpl.
  by rewrite bool_decide_eq_true_2.
Qed.

Lemma insert_snoc {A} (h : list A) x y : <[length h := y]> (h ++ [x]) = h ++ [y].
Proof.
  replace (length h) with (length h + 0)%nat at 1 by lia.
  by rewrite insert_app_r.
Qed.

Lemma crossover_child (h : list Solution) (a b : nat) A B point :
  h !! a = Some A → h !! b = Some B → genome_ok A → genome_ok B →
  0 ≤ point ≤ QUEENS →
  ∃ C, crossover h a b point QUEENS = Some (h ++ [C], length h) ∧ genome_ok C.
Proof.
  intros Ha Hb [HA HAr] [HB HBr] Hp. unfold crossover, alloc, NewSolution.
  cbv beta iota.
  destruct (copy_genes_spec h a A Ha (seqZ 0 point) (replicate (Z.to_nat QUEENS) 0))
    as (C1 & HC1 & Hlen1 & Hload1).
  { apply Forall_seqZ. intros i Hi. rewrite length_replicate. lia. }
  destruct (copy_genes_spec h b B Hb (seqZ point (QUEENS - point)) C1)
    as (C2 & HC2 & Hlen2 & Hload2).
  { apply Forall_seqZ. intros i Hi.
    rewrite Hlen1, length_replicate. lia. }
  exists C2. rewrite HC1. simpl. rewrite HC2. simpl. split; [done|].
  rewrite length_replicate in Hlen1. split; [lia|].
  apply Forall_lookup_2. intros n g Hn.
  pose proof (lookup_lt_Some _ _ _ Hn) as Hlt.
  rewrite <- load_of_nat, Hload2 in Hn by lia.
  destruct (decide (Z.of_nat n ∈ seqZ point (QUEENS - point))) as [Hin|Hin].
  - rewrite load_of_nat in Hn. exact (Forall_lookup_1 _ _ _ _ HBr Hn).
  - rewrite Hload1 in Hn by lia.
    rewrite decide_True in Hn by (rewrite elem_of_seqZ in *; lia).
    rewrite load_of_nat in Hn. exact (Forall_lookup_1 _ _ _ _ HAr Hn).
Qed.

Lemma NoDup_insert_fresh {A} (l : list A) (i : nat) x :
  NoDup l → x ∉ l → NoDup (<[i := x]> l).
Proof.
  rewrite !NoDup_alt. intros Hnd Hx j1 j2 y H1 H2.
  apply list_lookup_insert_Some in H1 as [(-> & -> & Hl1)|[Hne1 H1]];
    apply list_lookup_insert_Some in H2 as [(E2 & Ey & Hl2)|[Hne2 H2]].
  - done.
  - exfalso. apply Hx. by eapply list_elem_of_lookup_2.
  - subst. exfalso. apply Hx. by eapply list_elem_of_lookup_2.
  - by eapply Hnd.
Qed.

Section Population.

Variable RandState : Type.

(** The state is well formed whatever the generator holds. *)
Lemma state_wf_rand popsize (st : State RandState) (r : RandState) :
  state_wf popsize st → state_wf popsize (mkState (heap st) (pop st) r).
Proof. done. Qed.

(** Storing a freshly allocated genome in slot [i]. *)
Lemma install_fresh popsize (st : State RandState) C i (r : RandState) :
  state_wf popsize st → genome_ok C → 0 ≤ i < popsize →
  ∃ pop', store (pop st) i (length (heap st)) = Some pop' ∧
          state_wf popsize (mkState (heap st ++ [C]) pop' r).
Proof.
  intros (Hlen & Hnd & Hall) HC Hi.
  destruct (store_is_Some (pop st) i (length (heap st)) ltac:(lia)) as [pop' Hpop'].
  exists pop'. split; [done|].
  unfold store in Hpop'. case_bool_decide; [|done]. simplify_eq.
  split; [|split]; simpl.
  - by rewrite length_insert.
  - apply NoDup_insert_fresh; [done|]. intros Hin.
    rewrite Forall_forall in Hall.
    destruct (Hall _ Hin) as (s & Hs & _).
    apply lookup_lt_Some in Hs. lia.
  - apply Forall_insert.
    + eapply Forall_impl; [exact Hall|]. simpl.
      intros p (s & Hs & Hok). exists s. split; [|done].
      by apply lookup_app_l_Some.
    + exists C. split; [|done]. by apply list_lookup_middle.
Qed.

Lemma replace_individual_wf popsize (st : State RandState) i :
  state_wf popsize st → 0 ≤ i < popsize →
  ∃ st', replace_individual i st = Some st' ∧ state_wf popsize st'.
Proof.
  intros Hwf Hi. unfold replace_individual, alloc. cbv beta iota.
  destruct (install_fresh popsize st (NewSolution QUEENS) i (rand st)
              Hwf genome_ok_zeros Hi) as (pop' & -> & Hwf').
  simpl. eauto.
Qed.

End Population.

Section RandomGenomes.

Variable RandState : Type.
Variable rand_Intn : Z → RandState → Z * RandState.

(** [rand.Intn(n)] returns a value in [0, n). *)
Hypothesis rand_Intn_range : ∀ n r, 0 < n → 0 ≤ fst (rand_Intn n r) < n.

Lemma NewRandomSolution_loop_spec (h : list Solution) maxboardpos idxs :
  0 < maxboardpos → ∀ (s : Solution) r,
  Forall (λ i, 0 ≤ i < Z.of_nat (length s)) idxs →
  Forall (λ g, 0 ≤ g < maxboardpos) s →
  ∃ s' r', NewRandomSolution_loop RandState rand_Intn idxs (h ++ [s]) (length h) maxboardpos r
             = Some (h ++ [s'], r') ∧
           length s' = length s ∧ Forall (λ g, 0 ≤ g < maxboardpos) s'.
Proof.
  intros Hmax. induction idxs as [|i idxs IH]; intros s r Hidx Hs.
  - exists s, r. done.
  - apply Forall_cons in Hidx as [Hi Hidx]. simpl.
    pose proof (rand_Intn_range maxboardpos r Hmax) as Hv.
    destruct (rand_Intn maxboardpos r) as [v r1]. simpl in Hv.
    rewrite (set_Some _ _ s) by (done || by apply list_lookup_middle).
    simpl. rewrite insert_snoc.
    destruct (IH (<[Z.to_nat i := v]> s) r1) as (s' & r' & -> & Hlen & Hall).
    + by rewrite length_insert.
    + by apply Forall_insert.
    + exists s', r'. split; [done|]. split; [|done].
      by rewrite Hlen, length_insert.
Qed.

Lemma NewRandomSolution_spec (h : list Solution) numqueens maxboardpos r :
  0 ≤ numqueens → 0 < maxboardpos →
  ∃ s r', NewRandomSolution RandState rand_Intn h numqueens maxboardpos r
            = Some (h ++ [s], length h, r') ∧
          Z.of_nat (length s) = numqueens ∧ Forall (λ g, 0 ≤ g < maxboardpos) s.
Proof.
  intros Hn Hmax. unfold NewRandomSolution, alloc, NewSolution. cbv beta iota.
  destruct (NewRandomSolution_loop_spec h maxboardpos (seqZ 0 numqueens) Hmax
              (replicate (Z.to_nat numqueens) 0) r) as (s & r' & -> & Hlen & Hall).
  - apply Forall_seqZ. intros i Hi. rewrite length_replicate. lia.
  - apply Forall_replicate. lia.
  - simpl. exists s, r'. split; [done|]. split; [|done].
    rewrite Hlen, length_replicate. lia.
Qed.

(** X11.  A random genome has [numqueens] genes, each of them in
    [0, maxboardpos); it is allocated behind the genomes already on the
    heap, which stay as they are. *)
Theorem NewRandomSolution_in_range (h : list Solution) (numqueens maxboardpos : Z)
    (r : RandState) :
  0 ≤ numqueens → 0 < maxboardpos →
  ∃ s r', NewRandomSolution RandState rand_Intn h numqueens maxboardpos r
            = Some (h ++ [s], length h, r') ∧
          Z.of_nat (length s) = numqueens ∧ Forall (λ g, 0 ≤ g < maxboardpos) s.
Proof. apply NewRandomSolution_spec. Qed.

Lemma mutate_spec (h : list Solution) sol s numqueens maxboardpos r :
  h !! sol = Some s → Z.of_nat (length s) = numqueens →
  0 < numqueens → 0 < maxboardpos →
  ∃ randpos v r', mutate RandState rand_Intn h sol numqueens maxboardpos r
                    = Some (<[sol := <[Z.to_nat randpos := v]> s]> h, r') ∧
                  0 ≤ randpos < numqueens ∧ 0 ≤ v < maxboardpos.
Proof.
  intros Hs Hlen Hn Hmax. unfold mutate.
  pose proof (rand_Intn_range numqueens r Hn) as Hp.
  destruct (rand_Intn numqueens r) as [randpos r1]. simpl in Hp.
  pose proof (rand_Intn_range maxboardpos r1 Hmax) as Hv.
  destruct (rand_Intn maxboardpos r1) as [v r2]. simpl in Hv.
  rewrite (set_Some _ _ s) by (done || lia). simpl.
  exists randpos, v, r2. done.
Qed.

(** X12.  [mutate] overwrites exactly one gene of the genome it is called
    on, at a position below [numqueens] and with a value below
    [maxboardpos]; the genome keeps its length and every other genome of
    the heap is untouched. *)
Theorem mutate_one_gene (h : list Solution) (sol : nat) (s : Solution)
    (numqueens maxboardpos : Z) (r : RandState) :
  h !! sol = Some s → Z.of_nat (length s) = numqueens →
  0 < numqueens → 0 < maxboardpos →
  ∃ h' r' randpos v,
    mutate RandState rand_Intn h sol numqueens maxboardpos r = Some (h', r') ∧
    0 ≤ randpos < numqueens ∧ 0 ≤ v < maxboardpos ∧
    h' !! sol = Some (<[Z.to_nat randpos := v]> s) ∧
    length (<[Z.to_nat randpos := v]> s) = length s ∧
    ∀ p, p ≠ sol → h' !! p = h !! p.
Proof.
  intros Hs Hlen Hn Hmax.
  destruct (mutate_spec h sol s numqueens maxboardpos r Hs Hlen Hn Hmax)
    as (randpos & v & r' & Hm & Hp & Hv).
  eexists _, r', randpos, v. split; [exact Hm|].
  split; [done|]. split; [done|]. split; [|split].
  - apply list_lookup_insert_eq. by eapply lookup_lt_Some.
  - apply length_insert.
  - intros p Hne. by apply list_lookup_insert_ne.
Qed.

End RandomGenomes.

(** A genome of the engine always decodes, and its score is the share of
    queens placed. *)
Lemma fitness_genome (s : Solution) :
  Z.of_nat (length s) = QUEENS →
  ∃ b n, generateBoard s = Some (b, n) ∧
         fitness s = Some (inject_Z n / inject_Z QUEENS)%Q ∧
         0 ≤ n ≤ QUEENS ∧ queen_count (data b) = n ∧ non_attacking b.
Proof.
  intros Hlen.
  destruct (generateBoard_loop_spec s (NewBoard BOARDSIZE) 0 NewBoard_ok)
    as (b & n & Hrun & (_ & _ & Hna) & _ & _ & _ & Hle & Hcnt & Hn).
  exists b, n. unfold fitness, generateBoard. rewrite Hrun. simpl.
  specialize (Hn ltac:(lia) ltac:(lia)).
  simpl in Hcnt. rewrite queen_count_replicate_FREE in Hcnt.
  split_and!; try done; lia.
Qed.

Lemma heap_update_wf {RandState : Type} popsize (st : State RandState)
    (sol : nat) s' (r : RandState) :
  state_wf popsize st → genome_ok s' → (sol < length (heap st))%nat →
  state_wf popsize (mkState (<[sol := s']> (heap st)) (pop st) r).
Proof.
  intros (Hlen & Hnd & Hall) Hs' Hsol. split; [done|]. split; [done|]. simpl.
  eapply Forall_impl; [exact Hall|]. simpl. intros p (s & Hs & Hok).
  destruct (decide (p = sol)) as [->|Hne].
  - exists s'. split; [|done]. by apply list_lookup_insert_eq.
  - exists s. split; [|done]. by rewrite list_lookup_insert_ne.
Qed.

Lemma state_wf_lookup {RandState : Type} popsize (st : State RandState) i :
  state_wf popsize st → 0 ≤ i < popsize →
  ∃ p s, load (pop st) i = Some p ∧ heap st !! p = Some s ∧ genome_ok s.
Proof.
  intros (Hlen & _ & Hall) Hi.
  destruct (lookup_lt_is_Some_2 (pop st) (Z.to_nat i) ltac:(lia)) as [p Hp].
  destruct (Forall_lookup_1 _ _ _ _ Hall Hp) as (s & Hs & Hok).
  exists p, s. by rewrite load_lookup by lia.
Qed.

Section EngineInvariants.

Variable RandState : Type.
Variable rand_Float64 : RandState → Q * RandState.
Variable rand_Intn : Z → RandState → Z * RandState.

(** [rand.Intn(n)] returns a value in [0, n). *)
Hypothesis rand_Intn_range : ∀ n r, 0 < n → 0 ≤ fst (rand_Intn n r) < n.

(** *** Population construction *)

Lemma NewPopulation_loop_spec (m : nat) : ∀ k (st : State RandState),
  0 ≤ k → length (heap st) = Z.to_nat k → Forall genome_ok (heap st) →
  Z.of_nat (length (pop st)) = k + Z.of_nat m →
  (∀ j, (j < Z.to_nat k)%nat → pop st !! j = Some j) →
  ∃ st', NewPopulation_loop RandState rand_Intn (seqZ k (Z.of_nat m)) st = Some st' ∧
         length (heap st') = Z.to_nat (k + Z.of_nat m) ∧
         Forall genome_ok (heap st') ∧
         length (pop st') = length (pop st) ∧
         ∀ j, (j < Z.to_nat (k + Z.of_nat m))%nat → pop st' !! j = Some j.
Proof.
  pose proof square_bound as Hsq.
  induction m as [|m IH]; intros k st Hk Hheap Hok Hpop Hptr.
  - rewrite seqZ_nil by lia. exists st. split; [done|].
    rewrite Z.add_0_r. done.
  - rewrite seqZ_cons by lia. simpl NewPopulation_loop.
    destruct (NewRandomSolution_spec RandState rand_Intn rand_Intn_range
                (heap st) QUEENS (wrap (BOARDSIZE * BOARDSIZE)) (rand st))
      as (s & r' & -> & Hlen & Hall); [lia|rewrite wrap_small; lia|].
    rewrite wrap_small in Hall by lia. simpl.
    destruct (store_is_Some (pop st) k (length (heap st)) ltac:(lia))
      as [pop' Hpop'].
    rewrite Hpop'. simpl.
    unfold store in Hpop'. case_bool_decide; [|done]. simplify_eq.
    replace (Z.pred (Z.of_nat (S m))) with (Z.of_nat m) by lia.
    destruct (IH (Z.succ k)
                (mkState (heap st ++ [s]) (<[Z.to_nat k := length (heap st)]> (pop st)) r'))
      as (st' & Hst' & Hh' & Hok' & Hp' & Hptr'); simpl.
    + lia.
    + rewrite length_app. simpl. lia.
    + apply Forall_app. split; [done|]. by apply Forall_singleton.
    + rewrite length_insert. lia.
    + intros j Hj. destruct (decide (j = Z.to_nat k)) as [->|Hne].
      * rewrite list_lookup_insert_eq by lia. f_equal. lia.
      * rewrite list_lookup_insert_ne by lia. apply Hptr. lia.
    + simpl in Hp'. rewrite length_insert in Hp'.
      exists st'. split; [done|]. split_and!.
      * rewrite Hh'. f_equal. lia.
      * done.
      * done.
      * intros j Hj. apply Hptr'. lia.
Qed.

Lemma NewPopulation_spec (size : Z) (seed : RandState) :
  0 ≤ size →
  ∃ st, NewPopulation rand_Intn size seed = Some st ∧ state_wf size st ∧
        pop st = seq 0 (Z.to_nat size) ∧ length (heap st) = Z.to_nat size.
Proof.
  intros Hsize. unfold NewPopulation.
  destruct (NewPopulation_loop_spec (Z.to_nat size) 0
              (mkState [] (replicate (Z.to_nat size) 0%nat) seed))
    as (st & Hst & Hh & Hok & Hp & Hptr); simpl; try done.
  - rewrite length_replicate. lia.
  - intros j Hj. lia.
  - rewrite Z2Nat.id in Hst by lia. exists st. split; [done|].
    simpl in Hp. rewrite length_replicate in Hp.
    replace (Z.to_nat (0 + Z.of_nat (Z.to_nat size))) with (Z.to_nat size)
      in Hh, Hptr by lia.
    assert (pop st = seq 0 (Z.to_nat size)) as Epop.
    { apply list_eq. intros j.
      destruct (decide (j < Z.to_nat size)%nat) as [Hj|Hj].
      - rewrite Hptr, lookup_seq_lt by done. done.
      - rewrite !lookup_ge_None_2; [done|rewrite length_seq; lia|lia]. }
    split; [|done]. split; [lia|]. rewrite Epop. split; [apply NoDup_seq|].
    apply Forall_forall. intros p Hin. apply elem_of_seq in Hin.
    destruct (lookup_lt_is_Some_2 (heap st) p ltac:(lia)) as [s Hs].
    exists s. split; [done|]. exact (Forall_lookup_1 _ _ _ _ Hok Hs).
Qed.

(** X13.  [NewPopulation(size)] never fails: it returns [size] individuals,
    individual [i] backed by heap slot [i] (so no two share a genome), each
    genome of Q genes in [0, N²). *)
Theorem NewPopulation_well_formed (size : Z) (seed : RandState) :
  0 ≤ size →
  ∃ st, NewPopulation rand_Intn size seed = Some st ∧ state_wf size st ∧
        pop st = seq 0 (Z.to_nat size) ∧ length (heap st) = Z.to_nat size.
Proof. apply NewPopulation_spec. Qed.

(** *** Evaluation *)

Lemma evaluate_loop_spec (h : list Solution) (p : list nat) : ∀ i (fit : list Q),
  0 ≤ i → i + Z.of_nat (length p) ≤ Z.of_nat (length fit) →
  Forall (λ ptr, ∃ s, h !! ptr = Some s ∧ genome_ok s) p →
  ∃ fit', evaluate_loop h p i fit = Some fit' ∧ length fit' = length fit ∧
    (∀ j, (j < Z.to_nat i)%nat → fit' !! j = fit !! j) ∧
    ∀ (j : nat) ptr s, p !! j = Some ptr → h !! ptr = Some s →
      ∃ f, fit' !! (Z.to_nat i + j)%nat = Some f ∧ fitness s = Some f ∧
           (0 <= f)%Q ∧ (f <= 1)%Q.
Proof.
  induction p as [|ptr p IH]; intros i fit Hi Hlen Hall.
  - exists fit. split; [done|]. split; [done|]. split; [done|].
    intros j ptr s Hj. done.
  - apply Forall_cons in Hall as [(s & Hs & [Hsl Hsr]) Hall].
    simpl in Hlen. simpl evaluate_loop. rewrite Hs. simpl.
    destruct (fitness_genome s Hsl) as (b & n & _ & Hf & Hn & _).
    rewrite Hf. simpl.
    destruct (store_is_Some fit i (inject_Z n / inject_Z QUEENS)%Q ltac:(lia))
      as [fit1 Hfit1].
    rewrite Hfit1. simpl.
    pose proof (store_length _ _ _ _ Hfit1) as Hl1.
    destruct (IH (i + 1) fit1) as (fit' & -> & Hl' & Hkeep & Hnew);
      [lia|lia|done|].
    assert (fit' !! Z.to_nat i = Some (inject_Z n / inject_Z QUEENS)%Q) as Hi'.
    { rewrite Hkeep by lia. rewrite <- load_lookup by lia.
      rewrite (load_store _ _ _ _ _ Hfit1) by lia. by rewrite decide_True. }
    exists fit'. split; [done|]. split; [congruence|]. split.
    + intros j Hj. rewrite Hkeep by lia.
      rewrite <- !load_of_nat. rewrite (load_store _ _ _ _ _ Hfit1) by lia.
      by rewrite decide_False by lia.
    + intros [|j] ptr' s' Hj Hs'; simpl in Hj.
      * simplify_eq. exists (inject_Z n / inject_Z QUEENS)%Q.
        rewrite Nat.add_0_r. split; [done|]. split; [done|].
        apply ratio_bounds; lia.
      * destruct (Hnew j ptr' s' Hj Hs') as (f & Hfj & Hfs & Hr).
        exists f. split; [|done]. rewrite <- Hfj. f_equal. lia.
Qed.

Lemma evaluate_spec popsize (st : State RandState) :
  state_wf popsize st →
  ∃ fit, evaluate popsize st = Some fit ∧ Z.of_nat (length fit) = popsize ∧
    Forall (λ f, (0 <= f)%Q ∧ (f <= 1)%Q) fit ∧
    ∀ (i : nat) p s, pop st !! i = Some p → heap st !! p = Some s →
      ∃ f, fit !! i = Some f ∧ fitness s = Some f.
Proof.
  intros (Hlen & _ & Hall). unfold evaluate.
  destruct (evaluate_loop_spec (heap st) (pop st) 0
              (replicate (Z.to_nat popsize) 0%Q))
    as (fit & Hfit & Hl & _ & Hnew); [lia|rewrite length_replicate; lia|done|].
  rewrite length_replicate in Hl.
  exists fit. split; [done|]. split; [lia|]. split.
  - apply Forall_lookup_2. intros i f Hi.
    pose proof (lookup_lt_Some _ _ _ Hi) as Hlt.
    destruct (lookup_lt_is_Some_2 (pop st) i ltac:(lia)) as [p Hp].
    destruct (Forall_lookup_1 _ _ _ _ Hall Hp) as (s & Hs & _).
    destruct (Hnew i p s Hp Hs) as (f' & Hf' & _ & Hr).
    simpl in Hf'. by simplify_eq.
  - intros i p s Hp Hs.
    destruct (Hnew i p s Hp Hs) as (f & Hf & Hfs & _).
    exists f. done.
Qed.

(** X14.  Evaluating a well-formed population never fails: the fitness
    vector has one score per individual, the score of individual [i] is
    the fitness of its genome, and every score lies in [0, 1]. *)
Theorem evaluate_scores (popsize : Z) (st : State RandState) :
  state_wf popsize st →
  ∃ fit, evaluate popsize st = Some fit ∧ Z.of_nat (length fit) = popsize ∧
    Forall (λ f, (0 <= f)%Q ∧ (f <= 1)%Q) fit ∧
    ∀ (i : nat) p s, pop st !! i = Some p → heap st !! p = Some s →
      ∃ f, fit !! i = Some f ∧ fitness s = Some f.
Proof. apply evaluate_spec. Qed.

(** *** The operator pass *)

Section Operators.

Variable popsize : Z.
Hypothesis popsize_pos : 0 < popsize.

Lemma replacement_wf average fitness i (st : State RandState) :
  state_wf popsize st → 0 ≤ i < popsize →
  ∃ st', replacement rand_Float64 average fitness i st = Some st' ∧
         state_wf popsize st'.
Proof.
  intros Hwf Hi. unfold replacement.
  destruct (Qgtb average 0.7 && Qltb fitness 0.5);
    [by apply replace_individual_wf|].
  destruct (Qgtb average 0.8 && Qltb fitness 0.6);
    [by apply replace_individual_wf|].
  destruct (Qgtb average 0.9 && Qltb fitness 0.7);
    [by apply replace_individual_wf|].
  destruct (Qltb fitness (average * 0.3)); [|eauto].
  destruct (rand_Float64 (rand st)) as [u r].
  destruct (Qle_bool u 0.5); [|eauto].
  by apply replace_individual_wf.
Qed.

Lemma mutation_wf mutrate (st : State RandState) :
  state_wf popsize st →
  ∃ st', mutation rand_Float64 rand_Intn mutrate popsize st = Some st' ∧
         state_wf popsize st'.
Proof.
  intros Hwf. unfold mutation. pose proof square_bound as Hsq.
  destruct (rand_Float64 (rand st)) as [u r].
  destruct (Qle_bool u mutrate); [|eauto].
  pose proof (rand_Intn_range popsize r popsize_pos) as Hk.
  destruct (rand_Intn popsize r) as [k r']. simpl in Hk.
  destruct (state_wf_lookup popsize st k Hwf Hk) as (sol & s & -> & Hs & Hok).
  simpl. pose proof Hok as [Hlen Hall].
  destruct (mutate_spec RandState rand_Intn rand_Intn_range (heap st) sol s
              QUEENS (wrap (BOARDSIZE * BOARDSIZE)) r' Hs Hlen)
    as (randpos & v & r2 & -> & Hp & Hv); [lia|rewrite wrap_small; lia|].
  rewrite wrap_small in Hv by lia. simpl. eexists. split; [done|].
  apply heap_update_wf; [done| |by eapply lookup_lt_Some].
  by apply genome_ok_insert.
Qed.

Lemma crossover_step_wf crossrate sel i (st : State RandState) :
  state_wf popsize st → 0 ≤ i < popsize →
  0 ≤ bestfitnessindex sel < popsize → 0 ≤ nextbestfitnessindex sel < popsize →
  ∃ st', crossover_step rand_Float64 rand_Intn crossrate sel i st = Some st' ∧
         state_wf popsize st'.
Proof.
  intros Hwf Hi Hb Hn. unfold crossover_step.
  destruct (rand_Float64 (rand st)) as [u r].
  destruct (Qle_bool u crossrate); [|eauto].
  pose proof (rand_Intn_range QUEENS r ltac:(lia)) as Hp.
  destruct (rand_Intn QUEENS r) as [point r']. simpl in Hp.
  destruct (state_wf_lookup popsize st _ Hwf Hb) as (a & A & -> & HA & HAok).
  destruct (state_wf_lookup popsize st _ Hwf Hn) as (b & B & -> & HB & HBok).
  simpl.
  destruct (crossover_child (heap st) a b A B point HA HB HAok HBok ltac:(lia))
    as (C & -> & HC).
  simpl.
  destruct (install_fresh RandState popsize st C i r' Hwf HC Hi) as (pop' & -> & Hwf').
  simpl. eauto.
Qed.

Lemma newpop_step_wf newpoprate i (st : State RandState) :
  state_wf popsize st → 0 ≤ i < popsize →
  ∃ st', newpop_step rand_Float64 newpoprate i st = Some st' ∧
         state_wf popsize st'.
Proof.
  intros Hwf Hi. unfold newpop_step.
  destruct (rand_Float64 (rand st)) as [u r].
  destruct (Qle_bool u newpoprate); [|eauto].
  by apply replace_individual_wf.
Qed.

Lemma operators_wf average sel (fit : list Q) i (st : State RandState) :
  state_wf popsize st → Z.of_nat (length fit) = popsize → 0 ≤ i < popsize →
  0 ≤ bestfitnessindex sel < popsize → 0 ≤ nextbestfitnessindex sel < popsize →
  ∃ st', operators rand_Float64 rand_Intn average sel popsize fit i st = Some st' ∧
         state_wf popsize st'.
Proof.
  intros Hwf Hfit Hi Hb Hn. unfold operators.
  destruct (lookup_lt_is_Some_2 fit (Z.to_nat i) ltac:(lia)) as [fitness Hf].
  rewrite load_lookup, Hf by lia. simpl.
  destruct (replacement_wf average fitness i st Hwf Hi) as (st1 & -> & Hwf1).
  simpl.
  assert (∃ skip st2,
    (if Qgtb fitness (bestfitness sel * 0.9)
     then let '(u, r) := rand_Float64 (rand st1) in
          (Qle_bool u 0.9, mkState (heap st1) (pop st1) r)
     else (false, st1)) = (skip, st2) ∧ state_wf popsize st2)
    as (skip & st2 & -> & Hwf2).
  { destruct (Qgtb fitness (bestfitness sel * 0.9)); [|eauto].
    destruct (rand_Float64 (rand st1)) as [u r]. eauto. }
  destruct skip; [eauto|].
  match goal with
  | |- context [mutation _ _ ?m _ _] =>
      destruct (mutation_wf m st2 Hwf2) as (st3 & -> & Hwf3)
  end.
  simpl.
  match goal with
  | |- context [crossover_step _ _ ?c _ _ _] =>
      destruct (crossover_step_wf c sel i st3 Hwf3 Hi Hb Hn) as (st4 & -> & Hwf4)
  end.
  simpl. by apply newpop_step_wf.
Qed.

Lemma operators_loop_wf average sel (fit : list Q) idxs : ∀ (st : State RandState),
  state_wf popsize st → Z.of_nat (length fit) = popsize →
  Forall (λ i, 0 ≤ i < popsize) idxs →
  0 ≤ bestfitnessindex sel < popsize → 0 ≤ nextbestfitnessindex sel < popsize →
  ∃ st', operators_loop rand_Float64 rand_Intn average sel popsize fit idxs st
           = Some st' ∧ state_wf popsize st'.
Proof.
  induction idxs as [|i idxs IH]; intros st Hwf Hfit Hidx Hb Hn; [simpl; eauto|].
  apply Forall_cons in Hidx as [Hi Hidx]. simpl.
  destruct (operators_wf average sel fit i st Hwf Hfit Hi Hb Hn) as (st1 & -> & Hwf1).
  simpl. by apply IH.
Qed.

(** X15.  The operators applied to one individual never fail and leave a
    well-formed population: still [popsize] individuals, no two sharing a
    genome, every genome of Q genes in [0, N²). *)
Theorem operators_keep_population (average : Q) (sel : Selection) (fit : list Q)
    (i : Z) (st : State RandState) :
  state_wf popsize st → Z.of_nat (length fit) = popsize → 0 ≤ i < popsize →
  0 ≤ bestfitnessindex sel < popsize → 0 ≤ nextbestfitnessindex sel < popsize →
  ∃ st', operators rand_Float64 rand_Intn average sel popsize fit i st = Some st' ∧
         state_wf popsize st'.
Proof. apply operators_wf. Qed.

(** *** Generations *)

Lemma Qeq_one_point_zero : (1.0 == 1)%Q.
Proof. reflexivity. Qed.

Lemma generation_spec (st : State RandState) bestindex :
  state_wf popsize st → 0 ≤ bestindex < popsize →
  ∃ o, generation rand_Float64 rand_Intn popsize st bestindex = Some o ∧
    match o with
    | Break st' sel =>
        st' = st ∧ 0 ≤ bestfitnessindex sel < popsize ∧
        ∃ p s b, load (pop st) (bestfitnessindex sel) = Some p ∧
                 heap st !! p = Some s ∧ generateBoard s = Some (b, QUEENS) ∧
                 queen_count (data b) = QUEENS ∧ non_attacking b
    | Next st' sel => state_wf popsize st' ∧ 0 ≤ bestfitnessindex sel < popsize
    end.
Proof.
  intros Hwf Hb. unfold generation.
  destruct (evaluate_spec popsize st Hwf) as (fit & -> & Hlen & Hrange & Hfit).
  simpl.
  assert (fit ≠ []) as Hne by (intros ->; simpl in Hlen; lia).
  assert (Forall (λ f, (0 <= f)%Q) fit) as Hpos
    by (eapply Forall_impl; [exact Hrange|]; simpl; tauto).
  destruct (select_best fit bestindex Hne Hpos) as (j & Hj & Hfj).
  pose proof (lookup_lt_Some _ _ _ Hfj) as Hjlt.
  pose proof (select_next_range fit bestindex ltac:(lia)) as Hnext.
  set (sel := select fit bestindex) in *.
  destruct (Qeq_bool (bestfitness sel) 1.0) eqn:Ebest.
  - eexists. split; [done|]. simpl. split; [done|]. split; [lia|].
    apply Qeq_bool_iff in Ebest. rewrite Qeq_one_point_zero in Ebest.
    pose proof Hwf as (Hpl & _ & Hall).
    destruct (lookup_lt_is_Some_2 (pop st) j ltac:(lia)) as [p Hp].
    destruct (Forall_lookup_1 _ _ _ _ Hall Hp) as (s & Hs & [Hsl Hsr]).
    destruct (Hfit j p s Hp Hs) as (f & Hf & Hfs).
    destruct (fitness_genome s Hsl) as (b & n & Hgen & Hfn & Hn & Hcnt & Hna).
    assert (n = QUEENS) as ->.
    { apply (ratio_eq_1 n QUEENS); [lia|].
      assert (bestfitness sel = (inject_Z n / inject_Z QUEENS)%Q) as E
        by congruence.
      by rewrite <- E. }
    exists p, s, b. rewrite Hj, load_of_nat. done.
  - destruct (operators_loop_wf (sum fit / inject_Z popsize)%Q sel fit
                (seqZ 0 (Z.of_nat (length (pop st)))) st Hwf Hlen)
      as (st' & -> & Hwf'); [|lia|lia|].
    + apply Forall_seqZ. destruct Hwf as (Hpl & _). lia.
    + simpl. eexists. split; [done|]. simpl. split; [done|lia].
Qed.

(** X16.  When a generation stops the loop, the individual at
    [bestfitnessindex] is a solution: its genome decodes to a board with Q
    queens, no two of them on a common row, column or diagonal. *)
Theorem generation_break_is_solution (st st' : State RandState) (bestindex : Z)
    (sel : Selection) :
  state_wf popsize st → 0 ≤ bestindex < popsize →
  generation rand_Float64 rand_Intn popsize st bestindex = Some (Break st' sel) →
  st' = st ∧
  ∃ p s b, load (pop st) (bestfitnessindex sel) = Some p ∧
           heap st !! p = Some s ∧ generateBoard s = Some (b, QUEENS) ∧
           queen_count (data b) = QUEENS ∧ non_attacking b.
Proof.
  intros Hwf Hb Hgen.
  destruct (generation_spec st bestindex Hwf Hb) as (o & Ho & Hspec).
  rewrite Hgen in Ho. simplify_eq. destruct Hspec as (-> & _ & Hsol). done.
Qed.

Lemma generations_spec (n : nat) : ∀ (st : State RandState) bestindex,
  state_wf popsize st → 0 ≤ bestindex < popsize →
  ∃ st' idx, generations rand_Float64 rand_Intn n popsize st bestindex
               = Some (st', idx) ∧
             state_wf popsize st' ∧ 0 ≤ idx < popsize.
Proof.
  induction n as [|n IH]; intros st bestindex Hwf Hb; [simpl; eauto|].
  simpl. destruct (generation_spec st bestindex Hwf Hb) as (o & -> & Hspec).
  simpl. destruct o as [st' sel|st' sel].
  - destruct Hspec as (-> & Hidx & _). eauto.
  - destruct Hspec as (Hwf' & Hidx). by apply IH.
Qed.

End Operators.

(** X17.  The program never indexes outside a slice: for every seed, [main]
    runs its generations to the end and is left with a well-formed
    population of POPSIZE individuals and an index of one of them to
    print. *)
Theorem main_runs (seed : RandState) :
  0 < POPSIZE →
  ∃ st idx, main rand_Float64 rand_Intn seed = Some (st, idx) ∧
            state_wf POPSIZE st ∧ 0 ≤ idx < POPSIZE.
Proof.
  intros Hpop. unfold main.
  destruct (NewPopulation_spec POPSIZE seed ltac:(lia)) as (st & -> & Hwf & _).
  simpl. apply generations_spec; [done|done|lia].
Qed.

End EngineInvariants.

End NQueens.

Arguments mkState {RandState}.
Arguments heap {RandState}.
Arguments pop {RandState}.
Arguments rand {RandState}.
Arguments Break {RandState}.
Arguments Next {RandState}.
Arguments evaluate BOARDSIZE QUEENS {RandState}.
Arguments generation BOARDSIZE QUEENS {RandState}.
Arguments generations BOARDSIZE QUEENS {RandState}.
Arguments operators_loop BOARDSIZE QUEENS {RandState}.
Arguments crossover_step QUEENS {RandState}.
Arguments replacement QUEENS {RandState}.

(** ** Concrete runs *)

Lemma fitness_one_iff_solution_witness :
  0 < 4 < 2 ^ 32 ∧ 0 < 4 < 2 ^ 64 ∧
  Z.of_nat (length [1; 0; 0; 0]) = 4 ∧
  Forall (λ g, 0 ≤ g < 4 * 4) [1; 0; 0; 0] ∧
  ∃ b n f, generateBoard 4 [1; 0; 0; 0] = Some (b, n) ∧
    fitness 4 4 [1; 0; 0; 0] = Some f ∧
    ((f == 1)%Q ↔ queen_count (data b) = 4 ∧ non_attacking 4 b).
Proof.
  assert (H1 : 0 < 4 < 2 ^ 32) by lia.
  assert (H2 : 0 < 4 < 2 ^ 64) by lia.
  assert (H3 : Z.of_nat (length [1; 0; 0; 0]) = 4) by reflexivity.
  assert (H4 : Forall (λ g, 0 ≤ g < 4 * 4) [1; 0; 0; 0])
    by (repeat constructor; lia).
  split; [assumption|]. split; [assumption|]. split; [assumption|]. split; [assumption|].
  exact (fitness_one_iff_solution 4 4 H1 H2 [1; 0; 0; 0] H3 H4).
Defined.

Lemma decode_marks_consistent_witness :
  0 < 4 < 2 ^ 32 ∧
  Z.of_nat (length [1; 1; 1; 1]) = 4 ∧
  Forall (λ g, 0 ≤ g < 4 * 4) [1; 1; 1; 1] ∧
  NoDup (placements 4 [1; 1; 1; 1] (NewBoard 4)).
Proof.
  assert (H1 : 0 < 4 < 2 ^ 32) by lia.
  assert (H3 : Z.of_nat (length [1; 1; 1; 1]) = 4) by reflexivity.
  assert (H4 : Forall (λ g, 0 ≤ g < 4 * 4) [1; 1; 1; 1])
    by (repeat constructor; lia).
  split; [assumption|]. split; [assumption|]. split; [assumption|].
  exact (proj1 (decode_marks_consistent 4 4 H1 [1; 1; 1; 1] H3 H4)).
Defined.

Lemma place_unavailable_witness :
  0 < 4 < 2 ^ 32 ∧ board_wf 4 (NewBoard 4) ∧ 0 ≤ 16 < 2 ^ 64 ∧
  ∃ b' usepos e, place 4 (NewBoard 4) 16 = Some (b', (usepos, e)) ∧
    (e = NoAvailablePosition ↔ free_count (data (NewBoard 4)) ≤ 16) ∧
    (e = NoAvailablePosition →
       b' = NewBoard 4 ∧
       ∀ genes queenCounter,
         generateBoard_loop 4 (16 :: genes) (NewBoard 4) queenCounter =
         generateBoard_loop 4 genes (NewBoard 4) queenCounter).
Proof.
  assert (H1 : 0 < 4 < 2 ^ 32) by lia.
  assert (H2 : board_wf 4 (NewBoard 4)) by (split; reflexivity).
  assert (H3 : 0 ≤ 16 < 2 ^ 64) by lia.
  split; [assumption|]. split; [assumption|]. split; [assumption|].
  exact (place_unavailable 4 H1 (NewBoard 4) 16 H2 H3).
Defined.

Lemma place_in_bounds_witness :
  0 < 4 < 2 ^ 32 ∧ board_wf 4 (NewBoard 4) ∧
  ∃ b' usepos e, place 4 (NewBoard 4) 3 = Some (b', (usepos, e)) ∧
    length (data b') = length (data (NewBoard 4)).
Proof.
  assert (H1 : 0 < 4 < 2 ^ 32) by lia.
  assert (H2 : board_wf 4 (NewBoard 4)) by (split; reflexivity).
  split; [assumption|]. split; [assumption|].
  destruct (place_in_bounds 4 H1 (NewBoard 4) 3 H2) as (b' & u & e & Hp & Hlen & _).
  exists b', u, e. split; assumption.
Defined.

Lemma fitness_unit_interval_witness :
  0 < 4 < 2 ^ 32 ∧ 0 < 4 < 2 ^ 64 ∧
  Z.of_nat (length [1; 1; 1; 1]) = 4 ∧
  Forall (λ g, 0 ≤ g < 4 * 4) [1; 1; 1; 1] ∧
  ∃ b n f, generateBoard 4 [1; 1; 1; 1] = Some (b, n) ∧
    fitness 4 4 [1; 1; 1; 1] = Some f ∧
    n = Z.of_nat (length (placements 4 [1; 1; 1; 1] (NewBoard 4))) ∧
    f = (inject_Z n / inject_Z 4)%Q ∧ (0 <= f)%Q ∧ (f <= 1)%Q.
Proof.
  assert (H1 : 0 < 4 < 2 ^ 32) by lia.
  assert (H2 : 0 < 4 < 2 ^ 64) by lia.
  assert (H3 : Z.of_nat (length [1; 1; 1; 1]) = 4) by reflexivity.
  assert (H4 : Forall (λ g, 0 ≤ g < 4 * 4) [1; 1; 1; 1])
    by (repeat constructor; lia).
  split; [assumption|]. split; [assumption|]. split; [assumption|]. split; [assumption|].
  exact (fitness_unit_interval 4 4 H1 H2 [1; 1; 1; 1] H3 H4).
Defined.

Lemma decode_deterministic_witness :
  0 < 4 < 2 ^ 32 ∧
  ∃ b n, generateBoard 4 [1; 1; 1; 1] = Some (b, n) ∧
    ∀ h, generateBoard_heap 4 h [1; 1; 1; 1] = Some (h ++ [b], (length h, n)) ∧
         fitness_heap 4 4 h [1; 1; 1; 1] =
           Some (h ++ [b], (inject_Z n / inject_Z 4)%Q).
Proof.
  assert (H1 : 0 < 4 < 2 ^ 32) by lia.
  split; [assumption|].
  exact (decode_deterministic 4 4 H1 [1; 1; 1; 1]).
Defined.

Lemma crossover_single_point_witness :
  [[1; 2; 3; 4]; [5; 6; 7; 8]] !! 0%nat = Some [1; 2; 3; 4] ∧
  [[1; 2; 3; 4]; [5; 6; 7; 8]] !! 1%nat = Some [5; 6; 7; 8] ∧
  Z.of_nat (length [1; 2; 3; 4]) = 4 ∧ Z.of_nat (length [5; 6; 7; 8]) = 4 ∧
  0 ≤ 1 ≤ 4 ∧
  ∃ C, crossover [[1; 2; 3; 4]; [5; 6; 7; 8]] 0 1 1 4 =
         Some ([[1; 2; 3; 4]; [5; 6; 7; 8]] ++ [C], 2%nat) ∧
       Z.of_nat (length C) = 4 ∧
       (∀ i, 0 ≤ i < 1 → load C i = load [1; 2; 3; 4] i) ∧
       (∀ i, 1 ≤ i < 4 → load C i = load [5; 6; 7; 8] i) ∧
       ([[1; 2; 3; 4]; [5; 6; 7; 8]] ++ [C]) !! 0%nat = Some [1; 2; 3; 4] ∧
       ([[1; 2; 3; 4]; [5; 6; 7; 8]] ++ [C]) !! 1%nat = Some [5; 6; 7; 8].
Proof.
  assert (H1 : [[1; 2; 3; 4]; [5; 6; 7; 8]] !! 0%nat = Some [1; 2; 3; 4])
    by reflexivity.
  assert (H2 : [[1; 2; 3; 4]; [5; 6; 7; 8]] !! 1%nat = Some [5; 6; 7; 8])
    by reflexivity.
  assert (H3 : Z.of_nat (length [1; 2; 3; 4]) = 4) by reflexivity.
  assert (H4 : Z.of_nat (length [5; 6; 7; 8]) = 4) by reflexivity.
  assert (H5 : 0 ≤ 1 ≤ 4) by lia.
  split; [assumption|]. split; [assumption|]. split; [assumption|]. split; [assumption|]. split; [assumption|].
  exact (crossover_single_point 4 _ 0%nat 1%nat _ _ 1 H1 H2 H3 H4 H5).
Defined.

Lemma select_last_wins_witness :
  select [1 # 2; 0; 1 # 2; 1 # 4]%Q 7 = mkSelection (1 # 2) 2 (1 # 2) 0.
Proof.
  apply (select_last_wins [1 # 2; 0; 1 # 2; 1 # 4]%Q 7 (1 # 2) 2 0 (1 # 2) (1 # 2)).
  - unfold Qle. simpl. lia.
  - intros [|[|[|[|i]]]] f Hf; simpl in Hf; simplify_eq;
      unfold Qle; simpl; lia.
  - reflexivity.
  - reflexivity.
  - intros [|[|[|[|[|i]]]]] f Hi Hf; simpl in Hf; simplify_eq; try lia.
    unfold Qlt. simpl. lia.
  - lia.
  - reflexivity.
  - reflexivity.
  - intros [|[|i]] f Hi Hf; simpl in Hf; simplify_eq; try lia.
    unfold Qlt. simpl. lia.
Defined.

Lemma replacement_writes_zero_genome_witness :
  0 ≤ 1 < Z.of_nat (length (pop run_st0)) ∧
  ∃ st', replacement 4 scripted_Float64 0.75 0.25 1 run_st0 = Some st' ∧
         load (pop st') 1 = Some 2%nat ∧ heap st' !! 2%nat = Some [0; 0; 0; 0].
Proof.
  assert (H1 : 0 ≤ 1 < Z.of_nat (length (pop run_st0))) by (simpl; lia).
  split; [assumption|].
  destruct (replacement_writes_zero_genome 4 nat scripted_Float64 1 run_st0 H1)
    as [(st' & _ & _ & Hp & Hh & Hr & _) _].
  exists st'. split; [assumption|]. split; assumption.
Defined.

Lemma runner_up_carried_over_witness :
  generation 4 4 scripted_Float64 scripted_Intn 2 run_st0 0
    = Some (Next run_st1 run_sel1) ∧
  evaluate 4 4 2 run_st1 = Some [3 # 4; 2 # 4]%Q ∧
  select [3 # 4; 2 # 4]%Q (bestfitnessindex run_sel1) = run_sel2 ∧
  generations 4 4 scripted_Float64 scripted_Intn 2 2 run_st0 0 =
    (st2 ← operators_loop 4 4 scripted_Float64 scripted_Intn
             (sum [3 # 4; 2 # 4]%Q / inject_Z 2)%Q run_sel2 2 [3 # 4; 2 # 4]%Q
             (seqZ 0 (Z.of_nat (length (pop run_st1)))) run_st1;
     generations 4 4 scripted_Float64 scripted_Intn 0 2 st2 0).
Proof.
  assert (H1 : generation 4 4 scripted_Float64 scripted_Intn 2 run_st0 0
               = Some (Next run_st1 run_sel1)) by (vm_compute; reflexivity).
  assert (H2 : evaluate 4 4 2 run_st1 = Some [3 # 4; 2 # 4]%Q)
    by (vm_compute; reflexivity).
  assert (H3 : (0 <= 3 # 4)%Q) by (unfold Qle; simpl; lia).
  assert (H4 : Forall (λ f, (f < 3 # 4)%Q) [2 # 4]%Q)
    by (repeat constructor; unfold Qlt; simpl; lia).
  assert (H5 : ¬ (3 # 4 == 1.0)%Q) by (unfold Qeq; simpl; lia).
  destruct (runner_up_carried_over 4 4 nat scripted_Float64 scripted_Intn
              2 run_st0 run_st1 0 run_sel1 (3 # 4) [2 # 4]%Q 0 H1 H2 H3 H4 H5)
    as (Hsel & Hgens & _).
  split; [assumption|]. split; [assumption|]. split; assumption.
Defined.

(** ** Concrete runs of the further properties *)

Lemma scripted_Intn_range n r : 0 < n → 0 ≤ (scripted_Intn n r).1 < n.
Proof. intros Hn. unfold scripted_Intn. simpl. by apply Z.mod_pos_bound. Qed.

Lemma NewBoard_4_wf : board_wf 4 (NewBoard 4).
Proof. split; reflexivity. Qed.

Lemma board_q5_wf : board_wf 4 board_q5.
Proof. split; reflexivity. Qed.

Lemma place_q5 : place 4 (NewBoard 4) 5 = Some (board_q5, (5, err_nil)).
Proof. vm_compute. reflexivity. Qed.

Lemma run_st0_wf : state_wf 4 4 2 run_st0.
Proof.
  split; [reflexivity|]. split.
  - apply NoDup_cons. split; [|apply NoDup_singleton].
    intros H%list_elem_of_singleton. discriminate.
  - repeat constructor; eexists; (split; [reflexivity|]);
      (split; [reflexivity|repeat constructor; lia]).
Qed.

Lemma solved_st_wf : state_wf 4 4 1 solved_st.
Proof.
  split; [reflexivity|]. split; [apply NoDup_singleton|].
  repeat constructor; eexists; (split; [reflexivity|]);
    (split; [reflexivity|repeat constructor; lia]).
Qed.

Lemma pos2xy_roundtrip_witness :
  0 < 4 < 2 ^ 32 ∧ 0 ≤ 3 < 4 ∧ 0 ≤ 1 < 4 ∧
  pos2xy 4 (1 * 4 + 3) = {| pos_x := 3; pos_y := 1 |}.
Proof.
  assert (H1 : 0 < 4 < 2 ^ 32) by lia.
  assert (H2 : 0 ≤ 3 < 4) by lia.
  assert (H3 : 0 ≤ 1 < 4) by lia.
  split; [assumption|]. split; [assumption|]. split; [assumption|].
  exact (pos2xy_roundtrip 4 H1 3 1 H2 H3).
Defined.

Lemma pos2xy_off_board_witness :
  0 < 4 < 2 ^ 32 ∧ 4 * 4 ≤ 16 ∧
  pos2xy 4 16 = {| pos_x := 255; pos_y := 255 |}.
Proof.
  assert (H1 : 0 < 4 < 2 ^ 32) by lia.
  assert (H2 : 4 * 4 ≤ 16) by lia.
  split; [assumption|]. split; [assumption|].
  exact (pos2xy_off_board 4 H1 16 H2).
Defined.

Lemma place_selects_nth_free_witness :
  0 < 4 < 2 ^ 32 ∧ board_wf 4 (NewBoard 4) ∧
  place 4 (NewBoard 4) 5 = Some (board_q5, (5, err_nil)) ∧
  0 ≤ 5 < 4 * 4 ∧ load (data (NewBoard 4)) 5 = Some FREE ∧
  free_count (take (Z.to_nat 5) (data (NewBoard 4))) = 5.
Proof.
  assert (H1 : 0 < 4 < 2 ^ 32) by lia.
  split; [assumption|]. split; [exact NewBoard_4_wf|]. split; [exact place_q5|].
  exact (place_selects_nth_free 4 H1 (NewBoard 4) board_q5 5 5
           NewBoard_4_wf place_q5).
Defined.

Lemma place_marks_board_witness :
  0 < 4 < 2 ^ 32 ∧ board_wf 4 (NewBoard 4) ∧
  place 4 (NewBoard 4) 5 = Some (board_q5, (5, err_nil)) ∧
  width board_q5 = width (NewBoard 4) ∧
  length (data board_q5) = length (data (NewBoard 4)) ∧
  ∀ j, 0 ≤ j < 4 * 4 →
    load (data board_q5) j =
      if decide (j = 5) then Some QUEEN
      else if attacks 4 5 j then Some COVERED
      else load (data (NewBoard 4)) j.
Proof.
  assert (H1 : 0 < 4 < 2 ^ 32) by lia.
  split; [assumption|]. split; [exact NewBoard_4_wf|]. split; [exact place_q5|].
  exact (place_marks_board 4 H1 (NewBoard 4) board_q5 5 5
           NewBoard_4_wf place_q5).
Defined.

Lemma place_on_empty_board_witness :
  0 < 4 < 2 ^ 32 ∧ 0 ≤ 11 < 4 * 4 ∧
  ∃ b', place 4 (NewBoard 4) 11 = Some (b', (11, err_nil)).
Proof.
  assert (H1 : 0 < 4 < 2 ^ 32) by lia.
  assert (H2 : 0 ≤ 11 < 4 * 4) by lia.
  split; [assumption|]. split; [assumption|].
  exact (place_on_empty_board 4 H1 11 H2).
Defined.

Lemma place_consumes_free_witness :
  0 < 4 < 2 ^ 32 ∧ board_wf 4 (NewBoard 4) ∧
  place 4 (NewBoard 4) 5 = Some (board_q5, (5, err_nil)) ∧
  free_count (data board_q5) < free_count (data (NewBoard 4)) ∧
  ∀ j, load (data board_q5) j = Some FREE →
       load (data (NewBoard 4)) j = Some FREE ∧ attacks 4 5 j = false.
Proof.
  assert (H1 : 0 < 4 < 2 ^ 32) by lia.
  split; [assumption|]. split; [exact NewBoard_4_wf|]. split; [exact place_q5|].
  exact (place_consumes_free 4 H1 (NewBoard 4) board_q5 5 5
           NewBoard_4_wf place_q5).
Defined.

Lemma place_ordinal_too_large_witness :
  0 < 4 < 2 ^ 32 ∧ board_wf 4 board_q5 ∧ 4 * 4 ≤ 16 ∧
  place 4 board_q5 16 = Some (board_q5, (0, NoAvailablePosition)).
Proof.
  assert (H1 : 0 < 4 < 2 ^ 32) by lia.
  assert (H2 : 4 * 4 ≤ 16) by lia.
  split; [assumption|]. split; [exact board_q5_wf|]. split; [assumption|].
  exact (place_ordinal_too_large 4 H1 board_q5 16 board_q5_wf H2).
Defined.

Lemma generateBoard_loop_full_board_witness :
  0 < 4 < 2 ^ 32 ∧ board_wf 4 covered_board ∧
  free_count (data covered_board) = 0 ∧
  generateBoard_loop 4 [3; 0] covered_board 0 = Some (covered_board, 0).
Proof.
  assert (H1 : 0 < 4 < 2 ^ 32) by lia.
  assert (H2 : board_wf 4 covered_board) by (split; reflexivity).
  assert (H3 : free_count (data covered_board) = 0) by reflexivity.
  split; [assumption|]. split; [assumption|]. split; [assumption|].
  exact (generateBoard_loop_full_board 4 H1 [3; 0] covered_board 0 H2 H3).
Defined.

Lemma select_finds_maximum_witness :
  [1 # 2; 0; 1 # 2; 1 # 4]%Q ≠ [] ∧
  Forall (λ f, (0 <= f)%Q) [1 # 2; 0; 1 # 2; 1 # 4]%Q ∧
  (∃ j : nat,
     bestfitnessindex (select [1 # 2; 0; 1 # 2; 1 # 4]%Q 7) = Z.of_nat j ∧
     [1 # 2; 0; 1 # 2; 1 # 4]%Q !! j
       = Some (bestfitness (select [1 # 2; 0; 1 # 2; 1 # 4]%Q 7))) ∧
  Forall (λ f, (f <= bestfitness (select [1 # 2; 0; 1 # 2; 1 # 4]%Q 7))%Q)
    [1 # 2; 0; 1 # 2; 1 # 4]%Q ∧
  (nextbestfitness (select [1 # 2; 0; 1 # 2; 1 # 4]%Q 7)
   <= bestfitness (select [1 # 2; 0; 1 # 2; 1 # 4]%Q 7))%Q.
Proof.
  assert (H1 : [1 # 2; 0; 1 # 2; 1 # 4]%Q ≠ []) by discriminate.
  assert (H2 : Forall (λ f, (0 <= f)%Q) [1 # 2; 0; 1 # 2; 1 # 4]%Q)
    by (repeat constructor; unfold Qle; simpl; lia).
  split; [assumption|]. split; [assumption|].
  exact (select_finds_maximum [1 # 2; 0; 1 # 2; 1 # 4]%Q 7 H1 H2).
Defined.


Lemma NewRandomSolution_in_range_witness :
  0 ≤ 4 ∧ 0 < 16 ∧
  ∃ s r',
    NewRandomSolution nat scripted_Intn [[7; 7; 7; 7]] 4 16 0%nat
      = Some ([[7; 7; 7; 7]] ++ [s], length [[7; 7; 7; 7]], r') ∧
    Z.of_nat (length s) = 4 ∧ Forall (λ g, 0 ≤ g < 16) s.
Proof.
  assert (H1 : 0 ≤ 4) by lia.
  assert (H2 : 0 < 16) by lia.
  split; [assumption|]. split; [assumption|].
  exact (NewRandomSolution_in_range nat scripted_Intn scripted_Intn_range
           [[7; 7; 7; 7]] 4 16 0%nat H1 H2).
Defined.

Lemma mutate_one_gene_witness :
  [[1; 2; 3; 4]; [5; 6; 7; 8]] !! 1%nat = Some [5; 6; 7; 8] ∧
  Z.of_nat (length [5; 6; 7; 8]) = 4 ∧ 0 < 4 ∧ 0 < 16 ∧
  ∃ h' r' randpos v,
    mutate nat scripted_Intn [[1; 2; 3; 4]; [5; 6; 7; 8]] 1 4 16 2%nat
      = Some (h', r') ∧
    0 ≤ randpos < 4 ∧ 0 ≤ v < 16 ∧
    h' !! 1%nat = Some (<[Z.to_nat randpos:=v]> [5; 6; 7; 8]) ∧
    length (<[Z.to_nat randpos:=v]> [5; 6; 7; 8]) = length [5; 6; 7; 8] ∧
    ∀ p : nat, p ≠ 1%nat → h' !! p = [[1; 2; 3; 4]; [5; 6; 7; 8]] !! p.
Proof.
  assert (H1 : [[1; 2; 3; 4]; [5; 6; 7; 8]] !! 1%nat = Some [5; 6; 7; 8])
    by reflexivity.
  assert (H2 : Z.of_nat (length [5; 6; 7; 8]) = 4) by reflexivity.
  assert (H3 : 0 < 4) by lia.
  assert (H4 : 0 < 16) by lia.
  split; [assumption|]. split; [assumption|]. split; [assumption|].
  split; [assumption|].
  exact (mutate_one_gene nat scripted_Intn scripted_Intn_range
           [[1; 2; 3; 4]; [5; 6; 7; 8]] 1%nat [5; 6; 7; 8] 4 16 2%nat
           H1 H2 H3 H4).
Defined.

Lemma NewPopulation_well_formed_witness :
  0 < 4 < 2 ^ 32 ∧ 0 < 4 < 2 ^ 64 ∧ 0 ≤ 3 ∧
  ∃ st, NewPopulation 4 4 nat scripted_Intn 3 0%nat = Some st ∧
        state_wf 4 4 3 st ∧ pop st = seq 0 (Z.to_nat 3) ∧
        length (heap st) = Z.to_nat 3.
Proof.
  assert (H1 : 0 < 4 < 2 ^ 32) by lia.
  assert (H2 : 0 < 4 < 2 ^ 64) by lia.
  assert (H3 : 0 ≤ 3) by lia.
  split; [assumption|]. split; [assumption|]. split; [assumption|].
  exact (NewPopulation_well_formed 4 4 H1 H2 nat scripted_Intn
           scripted_Intn_range 3 0%nat H3).
Defined.

Lemma evaluate_scores_witness :
  0 < 4 < 2 ^ 32 ∧ 0 < 4 < 2 ^ 64 ∧ state_wf 4 4 2 run_st0 ∧
  ∃ fit, evaluate 4 4 2 run_st0 = Some fit ∧
         Z.of_nat (length fit) = 2 ∧
         Forall (λ f, (0 <= f <= 1)%Q) fit.
Proof.
  assert (H1 : 0 < 4 < 2 ^ 32) by lia.
  assert (H2 : 0 < 4 < 2 ^ 64) by lia.
  split; [assumption|]. split; [assumption|]. split; [exact run_st0_wf|].
  destruct (evaluate_scores 4 4 H1 H2 nat 2 run_st0 run_st0_wf)
    as (fit & Hev & Hlen & Hall & _).
  exists fit. split; [assumption|]. split; assumption.
Defined.

Lemma operators_keep_population_witness :
  0 < 4 < 2 ^ 32 ∧ 0 < 4 < 2 ^ 64 ∧ 0 < 2 ∧
  state_wf 4 4 2 run_st0 ∧ Z.of_nat (length [2 # 4; 3 # 4]%Q) = 2 ∧
  0 ≤ 1 < 2 ∧ 0 ≤ bestfitnessindex run_sel1 < 2 ∧
  0 ≤ nextbestfitnessindex run_sel1 < 2 ∧
  ∃ st', operators 4 4 nat scripted_Float64 scripted_Intn (5 # 8) run_sel1 2
           [2 # 4; 3 # 4]%Q 1 run_st0 = Some st' ∧
         state_wf 4 4 2 st'.
Proof.
  assert (H1 : 0 < 4 < 2 ^ 32) by lia.
  assert (H2 : 0 < 4 < 2 ^ 64) by lia.
  assert (H3 : 0 < 2) by lia.
  assert (H4 : Z.of_nat (length [2 # 4; 3 # 4]%Q) = 2) by reflexivity.
  assert (H5 : 0 ≤ 1 < 2) by lia.
  assert (H6 : 0 ≤ bestfitnessindex run_sel1 < 2) by (simpl; lia).
  assert (H7 : 0 ≤ nextbestfitnessindex run_sel1 < 2) by (simpl; lia).
  split; [assumption|]. split; [assumption|]. split; [assumption|].
  split; [exact run_st0_wf|]. split; [assumption|]. split; [assumption|].
  split; [assumption|]. split; [assumption|].
  exact (operators_keep_population 4 4 H1 H2 nat scripted_Float64 scripted_Intn
           scripted_Intn_range 2 H3 (5 # 8) run_sel1 [2 # 4; 3 # 4]%Q 1 run_st0
           run_st0_wf H4 H5 H6 H7).
Defined.

Lemma generation_break_is_solution_witness :
  0 < 4 < 2 ^ 32 ∧ 0 < 4 < 2 ^ 64 ∧ 0 < 1 ∧
  state_wf 4 4 1 solved_st ∧ 0 ≤ 0 < 1 ∧
  generation 4 4 scripted_Float64 scripted_Intn 1 solved_st 0
    = Some (Break solved_st solved_sel) ∧
  ∃ (p : nat) s b,
    load (pop solved_st) (bestfitnessindex solved_sel) = Some p ∧
    heap solved_st !! p = Some s ∧
    generateBoard 4 s = Some (b, 4) ∧
    queen_count (data b) = 4 ∧ non_attacking 4 b.
Proof.
  assert (H1 : 0 < 4 < 2 ^ 32) by lia.
  assert (H2 : 0 < 4 < 2 ^ 64) by lia.
  assert (H3 : 0 < 1) by lia.
  assert (H4 : 0 ≤ 0 < 1) by lia.
  assert (H5 : generation 4 4 scripted_Float64 scripted_Intn 1 solved_st 0
               = Some (Break solved_st solved_sel)) by (vm_compute; reflexivity).
  split; [assumption|]. split; [assumption|]. split; [assumption|].
  split; [exact solved_st_wf|]. split; [assumption|]. split; [assumption|].
  exact (proj2 (generation_break_is_solution 4 4 H1 H2 nat scripted_Float64
                  scripted_Intn scripted_Intn_range 1 H3 solved_st solved_st 0
                  solved_sel solved_st_wf H4 H5)).
Defined.

Lemma main_runs_witness :
  0 < 4 < 2 ^ 32 ∧ 0 < 4 < 2 ^ 64 ∧ 0 < 2 ∧
  ∃ st idx, main 4 4 2 2 nat scripted_Float64 scripted_Intn 0%nat
              = Some (st, idx) ∧
            state_wf 4 4 2 st ∧ 0 ≤ idx < 2.
Proof.
  assert (H1 : 0 < 4 < 2 ^ 32) by lia.
  assert (H2 : 0 < 4 < 2 ^ 64) by lia.
  assert (H3 : 0 < 2) by lia.
  split; [assumption|]. split; [assumption|]. split; [assumption|].
  exact (main_runs 4 4 2 2 H1 H2 nat scripted_Float64 scripted_Intn
           scripted_Intn_range 0%nat H3).
Defined.

Lemma crossover_point_beyond_end_witness :
  0 ≤ 4 < 5 ∧
  crossover [[1; 2; 3; 4]; [5; 6; 7; 8]] 0 1 5 4 = None.
Proof.
  assert (H1 : 0 ≤ 4 < 5) by lia.
  split; [assumption|].
  exact (crossover_point_beyond_end [[1; 2; 3; 4]; [5; 6; 7; 8]] 0%nat 1%nat
           5 4 H1).
Defined.

Lemma generateBoard_at_most_N_witness :
  0 < 4 < 2 ^ 32 ∧ Z.of_nat (length [0; 0; 0; 0; 0; 0]) < 2 ^ 64 ∧
  ∃ b n, generateBoard 4 [0; 0; 0; 0; 0; 0] = Some (b, n) ∧
         queen_count (data b) = n ∧ 0 ≤ n ≤ 4.
Proof.
  assert (H1 : 0 < 4 < 2 ^ 32) by lia.
  assert (H2 : Z.of_nat (length [0; 0; 0; 0; 0; 0]) < 2 ^ 64) by (simpl; lia).
  split; [assumption|]. split; [assumption|].
  exact (generateBoard_at_most_N 4 H1 [0; 0; 0; 0; 0; 0] H2).
Defined.

Lemma Board_String_draws_cells_witness :
  0 < 4 < 2 ^ 32 ∧ board_wf 4 board_q5 ∧
  ∃ s, Board_String board_q5 = Some s ∧
       Z.of_nat (length s) = 4 * (4 + 1) + 1 ∧
       (∀ p t, 0 ≤ p < 4 * 4 → load (data board_q5) p = Some t →
               s !! text_pos 4 p = Some (cell_char t)) ∧
       (∀ y, 0 ≤ y < 4 → s !! Z.to_nat (y * (4 + 1) + 4) = Some newline) ∧
       s !! Z.to_nat (4 * (4 + 1)) = Some newline.
Proof.
  assert (H1 : 0 < 4 < 2 ^ 32) by lia.
  split; [assumption|]. split; [exact board_q5_wf|].
  exact (Board_String_draws_cells 4 H1 board_q5 board_q5_wf).
Defined.

Lemma Board_String_injective_witness :
  0 < 4 < 2 ^ 32 ∧ board_wf 4 (NewBoard 4) ∧
  board_wf 4 {| width := 4; data := replicate 16 FREE |} ∧
  Board_String (NewBoard 4)
    = Board_String {| width := 4; data := replicate 16 FREE |} ∧
  NewBoard 4 = {| width := 4; data := replicate 16 FREE |}.
Proof.
  assert (H1 : 0 < 4 < 2 ^ 32) by lia.
  assert (H2 : board_wf 4 {| width := 4; data := replicate 16 FREE |})
    by (split; reflexivity).
  assert (H3 : Board_String (NewBoard 4)
               = Board_String {| width := 4; data := replicate 16 FREE |})
    by reflexivity.
  split; [assumption|]. split; [exact NewBoard_4_wf|]. split; [assumption|].
  split; [assumption|].
  exact (Board_String_injective 4 H1 (NewBoard 4)
           {| width := 4; data := replicate 16 FREE |} NewBoard_4_wf H2 H3).
Defined.

Lemma Solution_String_shows_queens_witness :
  0 < 4 < 2 ^ 32 ∧
  ∃ s, Solution_String 4 [1; 0; 0; 0] = Some s ∧
       Z.of_nat (length s) = 4 * (4 + 1) + 1 ∧
       ∀ p, 0 ≤ p < 4 * 4 →
            (s !! text_pos 4 p = Some "q"%char
             ↔ p ∈ placements 4 [1; 0; 0; 0] (NewBoard 4)).
Proof.
  assert (H1 : 0 < 4 < 2 ^ 32) by lia.
  split; [assumption|].
  exact (Solution_String_shows_queens 4 H1 [1; 0; 0; 0]).
Defined.
